(** * CodeGen_Coli: a shallow embedding of Halide's COLi text generator

    The development follows [src/CodeGen_Coli.cpp]: the name sanitizer
    [print_name], the type table [halide_type_to_coli_type_str], the
    [NormalizeVariableName] pre-pass, the generator state (output stream,
    indentation, lexical scope, loop-dimension stack and the declaration
    registries), the constructor that writes the prologue, the visitor
    methods, and the destructor that writes the epilogue. *)

From Stdlib Require Import List String Ascii ZArith Bool Lia Arith.
From Stdlib Require Import DecimalString.
From Stdlib Require PrimFloat.
Import ListNotations.

Set Warnings "-register-all".

Local Open Scope list_scope.
Local Open Scope string_scope.

(** ** Characters and text *)

Module Text.

(** [isalpha] and [isalnum] of <cctype> in the "C" locale. *)
Definition isalpha (c : ascii) : bool :=
  let n := nat_of_ascii c in
  ((65 <=? n) && (n <=? 90) || (97 <=? n) && (n <=? 122))%nat.

Definition isdigit (c : ascii) : bool :=
  let n := nat_of_ascii c in ((48 <=? n) && (n <=? 57))%nat.

Definition isalnum (c : ascii) : bool := isalpha c || isdigit c.

(** [name[0]]: the first character, or the terminating NUL of an empty
    [std::string]. *)
Definition front (name : string) : ascii :=
  match name with
  | EmptyString => Ascii.zero
  | String c _ => c
  end.

(** [stream << n] for an integer. *)
Definition string_of_Z (n : Z) : string := NilZero.string_of_int (Z.to_int n).

Definition string_of_nat (n : nat) : string := string_of_Z (Z.of_nat n).

(** [count] copies of one character. *)
Fixpoint replicate (count : nat) (c : ascii) : string :=
  match count with
  | O => EmptyString
  | S k => String c (replicate k c)
  end.

Definition newline : ascii := ascii_of_nat 10.
Definition nl : string := String newline EmptyString.

(** The double-quote character, as a text. *)
Definition dq : string := String (ascii_of_nat 34) EmptyString.

(** The last character of a text that is not a line break. *)
Fixpoint last_visible (s : string) : option ascii :=
  match s with
  | EmptyString => None
  | String c r =>
      match last_visible r with
      | Some d => Some d
      | None => if Ascii.eqb c newline then None else Some c
      end
  end.

End Text.

Import Text.

(** ** The name sanitizer (lines 65-84) *)

(** The body of the loop of [print_name] at one character. *)
Definition print_name_char (c : ascii) : string :=
  if Ascii.eqb c "." then "_"
  else if Ascii.eqb c "$" then "__"
  else if negb (Ascii.eqb c "_") && negb (isalnum c) then "___"
  else String c EmptyString.

Fixpoint print_name_loop (name : string) : string :=
  match name with
  | EmptyString => EmptyString
  | String c rest => print_name_char c ++ print_name_loop rest
  end.

Definition print_name (name : string) : string :=
  (if isalpha (front name) then "_" else EmptyString) ++ print_name_loop name.

(** ** The host IR consumed by the generator

    The node definitions belong to Halide's [IR.h]; the generator only
    reads them.  Fields the generator never reads ([for_type],
    [device_api], [reduction_domain]) are left out.  An [Expr] or [Stmt]
    value is always defined; the two optional children, [Block::rest] and
    [IfThenElse::else_case], are options. *)

Module IR.

(** Modelled from the spec: the host type system (Halide's [Type]) is
    missing; section 6 has an element type be a signed or unsigned integer
    of some width, a float of some width, or a boolean.  [Handle] stands
    for any other type. *)
Inductive TypeCode := Int | UInt | Float | Bool | Handle.

(** Modelled from the spec: the class [Type] is missing; the generator
    reads its kind and its [bits()]. *)
Record Type_ := mkType { code : TypeCode; bits : Z; lanes : Z }.

(** Modelled from the spec: [Type::is_uint] is missing. *)
Definition is_uint (t : Type_) : bool :=
  match code t with UInt => true | _ => false end.
(** Modelled from the spec: [Type::is_int] is missing. *)
Definition is_int (t : Type_) : bool :=
  match code t with Int => true | _ => false end.
(** Modelled from the spec: [Type::is_float] is missing. *)
Definition is_float (t : Type_) : bool :=
  match code t with Float => true | _ => false end.
(** Modelled from the spec: [Type::is_bool] is missing. *)
Definition is_bool (t : Type_) : bool :=
  match code t with Bool => true | _ => false end.

Definition TypeCode_eqb (a b : TypeCode) : bool :=
  match a, b with
  | Int, Int | UInt, UInt | Float, Float | Bool, Bool | Handle, Handle => true
  | _, _ => false
  end.

(** Modelled from the spec: [Type::operator==] is missing; two types are
    equal when all their fields are. *)
Definition Type_eqb (a b : Type_) : bool :=
  TypeCode_eqb (code a) (code b) && (bits a =? bits b)%Z
  && (lanes a =? lanes b)%Z.

(** Modelled from the spec: [Int(32)] of the missing type system, a
    signed integer of 32 bits. *)
Definition Int32 : Type_ := mkType Int 32 1.

(** Modelled from the spec: the enumeration [Call::CallType] is missing;
    the generator accepts [Halide] and [Image] and rejects the others. *)
Inductive CallType :=
| Image | Extern | ExternCPlusPlus | PureExtern
| Halide | Intrinsic | PureIntrinsic.

(** Modelled from the spec: the node classes are missing; these are the
    two-operand kinds of section 3 (arithmetic, comparison, boolean, min
    and max), one visit each. *)
Inductive BinaryOp :=
| Add | Sub | Mul | Div | Mod | Min | Max
| EQ | NE | LT | LE | GT | GE | And | Or.

(** Modelled from the spec: the expression nodes are missing; these are
    the expression kinds of section 3, each with the fields the visits
    and the pre-pass read.  [Variable_] and [Let_] are the node classes
    [Variable] and [Let], whose names are reserved words here. *)
Inductive Expr :=
| IntImm (type : Type_) (value : Z)
| UIntImm (type : Type_) (value : Z)
| FloatImm (type : Type_) (value : PrimFloat.float)
| StringImm (value : string)
| Cast (type : Type_) (value : Expr)
| Variable_ (type : Type_) (name : string) (param image : bool)
| Binary (op : BinaryOp) (a b : Expr)
| Not (a : Expr)
| Select (condition true_value false_value : Expr)
| Load (type : Type_) (name : string) (index : Expr)
| Ramp (base stride : Expr) (lanes : Z)
| Broadcast (value : Expr) (lanes : Z)
| Call (type : Type_) (name : string) (args : list Expr)
       (call_type : CallType)
| Let_ (name : string) (value body : Expr).

(** Modelled from the spec: [Range] is missing; one bound of a
    realization, read as [bounds[i].min] and [bounds[i].extent]. *)
Record Range := mkRange { min : Expr; extent : Expr }.

(** Modelled from the spec: the statement nodes are missing; these are
    the statement kinds of section 3, each with the fields the visits and
    the pre-pass read. *)
Inductive Stmt :=
| LetStmt (name : string) (value : Expr) (body : Stmt)
| AssertStmt (condition message : Expr)
| ProducerConsumer (name : string) (is_producer : bool) (body : Stmt)
| For (name : string) (min extent : Expr) (body : Stmt)
| Store (name : string) (value index : Expr)
| Provide (name : string) (values args : list Expr)
| Allocate (name : string) (type : Type_) (extents : list Expr)
           (condition : Expr) (body : Stmt)
| Free (name : string)
| Realize (name : string) (types : list Type_) (bounds : list Range)
          (condition : Expr) (body : Stmt)
| Block (first : Stmt) (rest : option Stmt)
| IfThenElse (condition : Expr) (then_case : Stmt)
             (else_case : option Stmt)
| Evaluate (value : Expr).

(** [s.as<Block>() != NULL]. *)
Definition is_Block (s : Stmt) : bool :=
  match s with Block _ _ => true | _ => false end.

(** [e.as<Variable>()]: the name of a variable node. *)
Definition as_Variable (e : Expr) : option string :=
  match e with Variable_ _ name _ _ => Some name | _ => None end.

(** [make_const(Int(32), v)]. *)
Definition make_const_i32 (v : Z) : Expr := IntImm Int32 v.

(** Modelled from the spec: the class [Function] is missing; a function
    of the pipeline as the constructor reads it, [f.name()] and
    [f.args()]. *)
Record Function := mkFunction { fname : string; fargs : list string }.

End IR.

Import IR.

(** ** Ordered containers

    [std::set<string>] and [std::map<string, T>] iterate in the order of
    [std::string::operator<]; they are kept as strictly increasing lists so
    that iteration order is the one of the source. *)

Module Ordered.

Definition StrSet := list string.

Fixpoint set_insert (x : string) (s : StrSet) : StrSet :=
  match s with
  | [] => [x]
  | y :: rest =>
      match String.compare x y with
      | Lt => x :: s
      | Eq => s
      | Gt => y :: set_insert x rest
      end
  end.

(** [s.find(x) != s.end()], also [s.count(x)]. *)
Definition set_mem (x : string) (s : StrSet) : bool :=
  existsb (String.eqb x) s.

Definition StrMap (T : Type) := list (string * T).

(** [m.emplace(k, v)]: inserts unless the key is present. *)
Fixpoint map_emplace {T} (k : string) (v : T) (m : StrMap T) : StrMap T :=
  match m with
  | [] => [(k, v)]
  | (k', v') :: rest =>
      match String.compare k k' with
      | Lt => (k, v) :: m
      | Eq => m
      | Gt => (k', v') :: map_emplace k v rest
      end
  end.

Fixpoint map_find {T} (k : string) (m : StrMap T) : option T :=
  match m with
  | [] => None
  | (k', v) :: rest => if String.eqb k k' then Some v else map_find k rest
  end.

End Ordered.

Import Ordered.

(** ** Lexical scope

    [Scope<Expr>] of Halide's [Scope.h] is not part of the sources at
    hand; its operations are those of section 4.2. *)

Module Scope.

(** Modelled from the spec: the type [Scope<Expr>] is missing; a name maps
    to the stack of its bindings, innermost first, and a name with no
    binding left is erased. *)
Definition t := StrMap (list Expr).

Definition empty : t := [].

(** Modelled from the spec: [Scope::push] is missing; it shadows any
    existing binding of the name. *)
Fixpoint push (name : string) (value : Expr) (sc : t) : t :=
  match sc with
  | [] => [(name, [value])]
  | (k, stack) :: rest =>
      match String.compare name k with
      | Lt => (name, [value]) :: sc
      | Eq => (k, value :: stack) :: rest
      | Gt => (k, stack) :: push name value rest
      end
  end.

(** Modelled from the spec: [Scope::pop] is missing; it removes the most
    recently pushed binding of the name and fails if none exists. *)
Fixpoint pop (name : string) (sc : t) : option t :=
  match sc with
  | [] => None
  | (k, stack) :: rest =>
      if String.eqb name k then
        match stack with
        | [] => None
        | [_] => Some rest
        | _ :: below => Some ((k, below) :: rest)
        end
      else
        match pop name rest with
        | Some rest' => Some ((k, stack) :: rest')
        | None => None
        end
  end.

(** Modelled from the spec: [Scope::get] is missing; it returns the bound
    expression or fails. *)
Definition get (name : string) (sc : t) : option Expr :=
  match map_find name sc with
  | Some (top :: _) => Some top
  | _ => None
  end.

(** Modelled from the spec: the iterator of [Scope] is missing; the full
    enumeration of the active bindings yields every bound name once, with
    its innermost binding: the pairs [(iter.name(), iter.value())] from
    [cbegin()] to [cend()], in key order. *)
Fixpoint bindings (sc : t) : list (string * Expr) :=
  match sc with
  | [] => []
  | (k, top :: _) :: rest => (k, top) :: bindings rest
  | (_, []) :: rest => bindings rest
  end.

End Scope.

(** ** External collaborators

    The passes and accessors the generator calls but does not define:
    [substitute_in_all_lets], [simplify] and [substitute] (Substitute.h,
    Simplify.h), [is_const] and [is_zero] (IROperator.h), [Expr::type()],
    the [IRPrinter] rendering of an expression that [to_string] and the
    diagnostic of a call use, [Loop::to_string] of the generator's header,
    and [Call::is_pure()].  They are parameters of the development. *)

(** Modelled from the spec: the struct [Loop] is declared in the header of
    the generator, which is missing; section 3 gives a loop dimension its
    name, min and extent, in the order of the initializer at line 342. *)
Record Loop := mkLoop { loop_name : string; loop_min : Expr; loop_extent : Expr }.

Class Host := {
  substitute_in_all_lets : Expr -> Expr;
  substitute_in_all_lets_stmt : Stmt -> Stmt;
  simplify : Expr -> Expr;
  substitute : StrMap Expr -> Expr -> Expr;
  is_const : Expr -> bool;
  is_zero : Expr -> bool;
  type_of : Expr -> Type_;
  show_expr : Expr -> string;
  Loop_to_string : Loop -> string;
  is_pure : Expr -> bool
}.

(** ** The [NormalizeVariableName] pre-pass (lines 124-176)

    An [IRMutator]: every node is rebuilt from its mutated children, and
    the four overridden visits rename through [print_name].  The source
    returns the original node when nothing changed, which is the same
    value. *)

Fixpoint normalize_expr (e : Expr) : Expr :=
  match e with
  | IntImm t v => IntImm t v
  | UIntImm t v => UIntImm t v
  | FloatImm t v => FloatImm t v
  | StringImm v => StringImm v
  | Cast t v => Cast t (normalize_expr v)
  | Variable_ t name param image => Variable_ t (print_name name) param image
  | Binary op a b => Binary op (normalize_expr a) (normalize_expr b)
  | Not a => Not (normalize_expr a)
  | Select c t f => Select (normalize_expr c) (normalize_expr t) (normalize_expr f)
  | Load t name index => Load t name (normalize_expr index)
  | Ramp base stride n => Ramp (normalize_expr base) (normalize_expr stride) n
  | Broadcast v n => Broadcast (normalize_expr v) n
  | Call t name args ct => Call t name (map normalize_expr args) ct
  | Let_ name value body =>
      Let_ (print_name name) (normalize_expr value) (normalize_expr body)
  end.

Definition normalize_range (r : Range) : Range :=
  mkRange (normalize_expr (min r)) (normalize_expr (extent r)).

Fixpoint normalize_stmt (s : Stmt) : Stmt :=
  match s with
  | LetStmt name value body =>
      LetStmt (print_name name) (normalize_expr value) (normalize_stmt body)
  | AssertStmt c m => AssertStmt (normalize_expr c) (normalize_expr m)
  | ProducerConsumer name p body => ProducerConsumer name p (normalize_stmt body)
  | For name mn ext body =>
      For (print_name name) (normalize_expr mn) (normalize_expr ext)
          (normalize_stmt body)
  | Store name value index => Store name (normalize_expr value) (normalize_expr index)
  | Provide name values args =>
      Provide name (map normalize_expr values) (map normalize_expr args)
  | Allocate name t extents c body =>
      Allocate name t (map normalize_expr extents) (normalize_expr c)
               (normalize_stmt body)
  | Free name => Free name
  | Realize name types bounds c body =>
      Realize name types (map normalize_range bounds) (normalize_expr c)
              (normalize_stmt body)
  | Block first rest =>
      Block (normalize_stmt first)
            (match rest with Some r => Some (normalize_stmt r) | None => None end)
  | IfThenElse c t e =>
      IfThenElse (normalize_expr c) (normalize_stmt t)
                 (match e with Some r => Some (normalize_stmt r) | None => None end)
  | Evaluate v => Evaluate (normalize_expr v)
  end.

(** ** Generator state and the monad of the visitor *)

(** The two tiers of fatal diagnostics: [user_error]/[user_assert] and
    [internal_error]/[internal_assert]. *)
Inductive Tier := User | Internal.

(** Ways for a run of the model to end that are not diagnostics of the
    source: the recursion bound of the model is exhausted, or the source
    indexes an empty vector. *)
Inductive Halt := OutOfFuel | EmptyVector.

Inductive Outcome (A : Type) :=
| Done (a : A)
| Fatal (tier : Tier) (msg : string)
| Stuck (h : Halt).

Arguments Done {A} a.
Arguments Fatal {A} tier msg.
Arguments Stuck {A} h.

Definition tier_of {A} (o : Outcome A) : option Tier :=
  match o with Fatal t _ => Some t | _ => None end.

(** The members of [CodeGen_Coli] that the methods use, with [stream] and
    [indent] of its base class [IRPrinter]. *)
Record CodeGen_Coli := mkCodeGen {
  stream : string;
  indent : Z;
  func : string;
  scope : Scope.t;
  loop_dims : list Loop;
  output_buffers : StrSet;
  input_buffers : StrSet;
  temporary_buffers : StrSet;
  computation_list : StrSet;
  constant_list : StrSet
}.

Definition with_stream (cg : CodeGen_Coli) (v : string) :=
  mkCodeGen v (indent cg) (func cg) (scope cg) (loop_dims cg)
    (output_buffers cg) (input_buffers cg) (temporary_buffers cg)
    (computation_list cg) (constant_list cg).
Definition with_indent (cg : CodeGen_Coli) (v : Z) :=
  mkCodeGen (stream cg) v (func cg) (scope cg) (loop_dims cg)
    (output_buffers cg) (input_buffers cg) (temporary_buffers cg)
    (computation_list cg) (constant_list cg).
Definition with_scope (cg : CodeGen_Coli) (v : Scope.t) :=
  mkCodeGen (stream cg) (indent cg) (func cg) v (loop_dims cg)
    (output_buffers cg) (input_buffers cg) (temporary_buffers cg)
    (computation_list cg) (constant_list cg).
Definition with_loop_dims (cg : CodeGen_Coli) (v : list Loop) :=
  mkCodeGen (stream cg) (indent cg) (func cg) (scope cg) v
    (output_buffers cg) (input_buffers cg) (temporary_buffers cg)
    (computation_list cg) (constant_list cg).
Definition with_output_buffers (cg : CodeGen_Coli) (v : StrSet) :=
  mkCodeGen (stream cg) (indent cg) (func cg) (scope cg) (loop_dims cg)
    v (input_buffers cg) (temporary_buffers cg)
    (computation_list cg) (constant_list cg).
Definition with_input_buffers (cg : CodeGen_Coli) (v : StrSet) :=
  mkCodeGen (stream cg) (indent cg) (func cg) (scope cg) (loop_dims cg)
    (output_buffers cg) v (temporary_buffers cg)
    (computation_list cg) (constant_list cg).
Definition with_temporary_buffers (cg : CodeGen_Coli) (v : StrSet) :=
  mkCodeGen (stream cg) (indent cg) (func cg) (scope cg) (loop_dims cg)
    (output_buffers cg) (input_buffers cg) v
    (computation_list cg) (constant_list cg).
Definition with_computation_list (cg : CodeGen_Coli) (v : StrSet) :=
  mkCodeGen (stream cg) (indent cg) (func cg) (scope cg) (loop_dims cg)
    (output_buffers cg) (input_buffers cg) (temporary_buffers cg)
    v (constant_list cg).
Definition with_constant_list (cg : CodeGen_Coli) (v : StrSet) :=
  mkCodeGen (stream cg) (indent cg) (func cg) (scope cg) (loop_dims cg)
    (output_buffers cg) (input_buffers cg) (temporary_buffers cg)
    (computation_list cg) v.

(** A method of the generator: it reads and updates the members and ends
    normally, with a fatal diagnostic, or stuck.  A fatal diagnostic ends
    the process (Halide's [ErrorReport] aborts), so the state returned with
    it is the state at the abort. *)
Definition M (A : Type) := CodeGen_Coli -> Outcome A * CodeGen_Coli.

Definition ret {A} (a : A) : M A := fun cg => (Done a, cg).

Definition bind {A B} (m : M A) (k : A -> M B) : M B :=
  fun cg =>
    match m cg with
    | (Done a, cg') => k a cg'
    | (Fatal t msg, cg') => (Fatal t msg, cg')
    | (Stuck h, cg') => (Stuck h, cg')
    end.

Declare Scope cg_scope.
Delimit Scope cg_scope with cg.
Notation "x <- m ;; k" := (bind m (fun x => k))
  (at level 61, m at next level, right associativity) : cg_scope.
Notation "m ;; k" := (bind m (fun _ => k))
  (at level 61, right associativity) : cg_scope.
Local Open Scope cg_scope.

Definition gets {A} (f : CodeGen_Coli -> A) : M A := fun cg => (Done (f cg), cg).
Definition modify (f : CodeGen_Coli -> CodeGen_Coli) : M unit :=
  fun cg => (Done tt, f cg).

Definition user_error {A} (msg : string) : M A := fun cg => (Fatal User msg, cg).
Definition internal_error {A} (msg : string) : M A :=
  fun cg => (Fatal Internal msg, cg).
Definition stuck {A} (h : Halt) : M A := fun cg => (Stuck h, cg).

Definition user_assert (c : bool) (msg : string) : M unit :=
  if c then ret tt else user_error msg.
Definition internal_assert (c : bool) (msg : string) : M unit :=
  if c then ret tt else internal_error msg.

(** [stream << w]. *)
Definition emit (w : string) : M unit :=
  modify (fun cg => with_stream cg (stream cg ++ w)).

(** [IRPrinter::do_indent]: one space per unit of [indent]. *)
Definition do_indent : M unit :=
  modify (fun cg =>
    with_stream cg (stream cg ++ replicate (Z.to_nat (indent cg)) " ")).

(** [indent += d]. *)
Definition add_indent (d : Z) : M unit :=
  modify (fun cg => with_indent cg (indent cg + d)).

Definition tab_size : Z := 4.

Definition headers : string :=
  "#include <isl/set.h>" ++ nl ++
  "#include <isl/union_map.h>" ++ nl ++
  "#include <isl/union_set.h>" ++ nl ++
  "#include <isl/ast_build.h>" ++ nl ++
  "#include <isl/schedule.h>" ++ nl ++
  "#include <isl/schedule_node.h>" ++ nl ++ nl ++
  "#include <coli/debug.h>" ++ nl ++
  "#include <coli/core.h>" ++ nl ++ nl ++
  "#include <string.h>" ++ nl ++
  "#include <Halide.h>" ++ nl ++
  "#include " ++ dq ++ "halide_image_io.h" ++ dq ++ nl.

(** ** Helpers of the generator *)

(** The loop shared by [to_string], [get_loop_bounds] and the size lists:
    every element, and the separator after each but the last. *)
Fixpoint separated {T} (show : T -> string) (sep : string) (v : list T) : string :=
  match v with
  | [] => EmptyString
  | x :: rest =>
      show x ++ match rest with [] => EmptyString | _ => sep end
             ++ separated show sep rest
  end.

(** The template [to_string] over a vector (lines 36-48). *)
Definition to_string {T} (show : T -> string) (v : list T) : string :=
  "[" ++ separated show ", " v ++ "]".

(** [halide_type_to_coli_type_str] (lines 86-122). *)
Definition halide_type_to_coli_type_str (type : Type_) : M string :=
  if is_uint type then
    if (bits type =? 8)%Z then ret "coli::p_uint8"
    else if (bits type =? 16)%Z then ret "coli::p_uint16"
    else if (bits type =? 32)%Z then ret "coli::p_uint32"
    else ret "coli::p_uint64"
  else if is_int type then
    if (bits type =? 8)%Z then ret "coli::p_int8"
    else if (bits type =? 16)%Z then ret "coli::p_int16"
    else if (bits type =? 32)%Z then ret "coli::p_int32"
    else ret "coli::p_int64"
  else if is_float type then
    if (bits type =? 32)%Z then ret "coli::p_float32"
    else if (bits type =? 64)%Z then ret "coli::p_float64"
    else user_error
           ("Floats other than 32 and 64 bits are not suppored in Coli." ++ nl)
  else if is_bool type then ret "coli::p_boolean"
  else user_error ("Halide type cannot be translated to Coli type." ++ nl).

(** [push_loop_dim] and [pop_loop_dim] (lines 341-347); [pop_back] of an
    empty vector leaves it empty here. *)
Definition push_loop_dim (name : string) (mn ext : Expr) : M unit :=
  modify (fun cg => with_loop_dims cg (loop_dims cg ++ [mkLoop name mn ext])%list).

Definition pop_loop_dim : M unit :=
  modify (fun cg => with_loop_dims cg (removelast (loop_dims cg))).

Section WithHost.

Context {H : Host}.

(** The vector [relevant_exprs] that the loop of [get_loop_bound_vars]
    fills (lines 350-358). *)
Definition relevant_exprs (dims : list Loop) : list Expr :=
  fold_left
    (fun (acc : list Expr) d =>
       let acc := if negb (is_const (loop_min d))
                  then (acc ++ [loop_min d])%list else acc in
       if negb (is_const (loop_extent d))
       then (acc ++ [loop_extent d])%list else acc)
    dims [].

(** [get_loop_bound_vars] (lines 349-363), on the value of [loop_dims]. *)
Definition get_loop_bound_vars (dims : list Loop) : string :=
  match relevant_exprs dims with
  | [] => EmptyString
  | exprs => to_string show_expr exprs
  end.

(** [get_loop_bounds] (lines 365-376). *)
Definition get_loop_bounds (dims : list Loop) : string :=
  "(" ++ separated Loop_to_string ") and (" dims ++ ")".

(** The map [replacements] built by the loop of the visit of a [For] node
    (lines 650-656). *)
Definition for_replacements (sc : Scope.t) (min_name extent_name : string)
  : StrMap Expr :=
  fold_left
    (fun replacements '(name, value) =>
       if negb (String.eqb name min_name) || negb (String.eqb name extent_name)
       then map_emplace name value replacements
       else replacements)
    (Scope.bindings sc) [].

(** [scope.get(name)]. *)
Definition scope_get (name : string) : M Expr :=
  sc <- gets scope ;;
  match Scope.get name sc with
  | Some e => ret e
  | None => internal_error ("Symbol not found" ++ nl)
  end.

(** [scope.pop(name)]. *)
Definition scope_pop (name : string) : M unit :=
  sc <- gets scope ;;
  match Scope.pop name sc with
  | Some sc' => modify (fun cg => with_scope cg sc')
  | None => internal_error ("Name not in symbol table" ++ nl)
  end.

Definition scope_push (name : string) (value : Expr) : M unit :=
  modify (fun cg => with_scope cg (Scope.push name value (scope cg))).

(** A loop that prints the elements of a vector with [", "] after each
    but the last (the argument list of a call, the extents of a
    realization). *)
Fixpoint print_separated (print : Expr -> M unit) (v : list Expr) : M unit :=
  match v with
  | [] => ret tt
  | x :: rest =>
      print x ;;
      match rest with [] => ret tt | _ => emit ", " end ;;
      print_separated print rest
  end.

(** ** The expression visits

    [print] is [CodeGen_Coli::print(Expr)], through which every visit
    reaches the children of its node. *)

Definition visit_infix (print : Expr -> M unit) (a : Expr) (op : string)
           (b : Expr) : M unit :=
  emit "(" ;; print a ;; emit op ;; print b ;; emit ")".

Definition visit_Binary (print : Expr -> M unit) (op : BinaryOp) (a b : Expr)
  : M unit :=
  match op with
  | Add => visit_infix print a " + " b
  | Sub => visit_infix print a " - " b
  | Mul => visit_infix print a "*" b
  | Div => visit_infix print a "/" b
  | Mod => visit_infix print a " % " b
  | Min =>
      emit "coli::expr(coli::o_min, " ;; print a ;; emit ", " ;; print b ;;
      emit ")"
  | Max =>
      emit "coli::expr(coli::o_max, " ;; print a ;; emit ", " ;; print b ;;
      emit ")"
  | EQ => visit_infix print a " == " b
  | NE => visit_infix print a " != " b
  | LT => visit_infix print a " < " b
  | LE => visit_infix print a " <= " b
  | GT => visit_infix print a " > " b
  | GE => visit_infix print a " >= " b
  | And => visit_infix print a " && " b
  | Or => visit_infix print a " || " b
  end.

Definition visit_IntImm (type : Type_) (value : Z) : M unit :=
  emit "coli::expr(" ;;
  (if (bits type =? 8)%Z then emit "(int8_t)"
   else if (bits type =? 16)%Z then emit "(int16_t)"
   else if (bits type =? 32)%Z then emit "(int32_t)"
   else ret tt) ;;
  emit (string_of_Z value ++ ")").

Definition visit_UIntImm (type : Type_) (value : Z) : M unit :=
  emit "coli::expr(" ;;
  (if (bits type =? 8)%Z then emit "(uint8_t)"
   else if (bits type =? 16)%Z then emit "(uint16_t)"
   else if (bits type =? 32)%Z then emit "(uint32_t)"
   else ret tt) ;;
  emit (string_of_Z value ++ ")").

Definition visit_FloatImm (type : Type_) (value : PrimFloat.float) : M unit :=
  if (bits type =? 32)%Z then emit "coli::expr((float)op->value);"
  else if (bits type =? 64)%Z then emit "coli::expr(op->value);"
  else user_error ("Conversion of float " ++ string_of_Z (bits type)
                   ++ "_t to COLi is not currently supported." ++ nl).

Definition visit_Variable (name : string) (param image : bool) : M unit :=
  user_assert (negb param && negb image)
    ("Can only handle conversion of simple variable to COLi for now." ++ nl) ;;
  constants <- gets constant_list ;;
  if set_mem name constants then emit (name ++ "(0)")
  else emit ("coli::idx(" ++ dq ++ name ++ dq ++ ")").

Definition visit_Select (print : Expr -> M unit) (c t f : Expr) : M unit :=
  do_indent ;;
  emit "coli::expr(coli::o_cond, " ;; print c ;; emit ", " ;; print t ;;
  emit ", " ;; print f ;; emit ")".

(** The visit of a [Call] node [op], lines 767-784; the diagnostic of the
    first check streams the node and whether it is pure, a [bool] that
    prints as 1 or 0. *)
Definition visit_Call (print : Expr -> M unit) (op : Expr) (name : string)
           (args : list Expr) (call_type : CallType) : M unit :=
  user_assert (match call_type with Halide | Image => true | _ => false end)
    ("Only handle call to halide func or image for now." ++ nl
     ++ show_expr op ++ nl
     ++ "is pure? " ++ (if is_pure op then "1" else "0") ++ nl) ;;
  computations <- gets computation_list ;;
  internal_assert (set_mem name computations)
    ("Call to computation that does not exist." ++ nl) ;;
  emit (name ++ "(") ;;
  print_separated print args ;;
  emit ")".

Definition visit_Let : M unit :=
  user_error ("Should not have encountered Let expr since we've called "
              ++ "substitute_in_all_lets." ++ nl).

(** The dispatch of [e.accept(this)]. *)
Definition visit_expr (print : Expr -> M unit) (e : Expr) : M unit :=
  match e with
  | IntImm t v => visit_IntImm t v
  | UIntImm t v => visit_UIntImm t v
  | FloatImm t v => visit_FloatImm t v
  | StringImm _ =>
      user_error ("Conversion of StringImm to COLi is not supported." ++ nl)
  | Cast _ _ =>
      user_error ("Conversion of Cast to COLi is not currently supported." ++ nl)
  | Variable_ _ name param image => visit_Variable name param image
  | Binary op a b => visit_Binary print op a b
  | Not a => emit "!" ;; print a
  | Select c t f => visit_Select print c t f
  | Load _ _ _ =>
      user_error ("Conversion of Load to COLi is not currently supported." ++ nl)
  | Ramp _ _ _ =>
      user_error ("Conversion of Ramp to COLi is not supported." ++ nl)
  | Broadcast _ _ =>
      user_error ("Conversion of Broadcast to COLi is not supported." ++ nl)
  | Call _ name args call_type => visit_Call print e name args call_type
  | Let_ _ _ _ => visit_Let
  end.

(** [CodeGen_Coli::print(Expr)] (lines 50-55); [fuel] bounds the depth of
    the recursion through [accept]. *)
Fixpoint print_expr (fuel : nat) (e : Expr) : M unit :=
  match fuel with
  | O => stuck OutOfFuel
  | S k => visit_expr (print_expr k) (substitute_in_all_lets e)
  end.

End WithHost.

Section Statements.

Context {H : Host}.

Definition insert_output_buffer (name : string) : M unit :=
  modify (fun cg => with_output_buffers cg (set_insert name (output_buffers cg))).
Definition insert_input_buffer (name : string) : M unit :=
  modify (fun cg => with_input_buffers cg (set_insert name (input_buffers cg))).
Definition insert_temporary_buffer (name : string) : M unit :=
  modify (fun cg =>
    with_temporary_buffers cg (set_insert name (temporary_buffers cg))).
Definition insert_computation (name : string) : M unit :=
  modify (fun cg =>
    with_computation_list cg (set_insert name (computation_list cg))).
Definition insert_constant (name : string) : M unit :=
  modify (fun cg => with_constant_list cg (set_insert name (constant_list cg))).

(** [define_constant] (lines 623-636).  The operands of a chain of [<<]
    are taken left to right, so the text before a failing
    [halide_type_to_coli_type_str] is already on the stream. *)
Definition define_constant (print : Expr -> M unit) (name : string)
           (val : Expr) : M unit :=
  constants <- gets constant_list ;;
  internal_assert (negb (set_mem name constants))
    ("Redefinition of lets is not supported right now." ++ nl) ;;
  let val := simplify val in
  do_indent ;;
  emit ("coli::constant " ++ name ++ "(" ++ dq ++ name ++ dq ++ ", ") ;;
  print val ;;
  emit ", " ;;
  t <- halide_type_to_coli_type_str (type_of val) ;;
  f <- gets func ;;
  emit (t ++ ", true, NULL, 0, &" ++ f ++ ");" ++ nl) ;;
  insert_constant name.

(** The visit of a [LetStmt] node, lines 607-611. *)
Definition visit_LetStmt (print : Stmt -> M unit) (name : string)
           (value : Expr) (body : Stmt) : M unit :=
  scope_push name value ;;
  print body ;;
  scope_pop name.

(** The visit of a [ProducerConsumer] node, lines 613-621. *)
Definition visit_ProducerConsumer (print : Stmt -> M unit) (name : string)
           (is_producer : bool) (body : Stmt) : M unit :=
  user_assert (negb (is_Block body))
    ("Does not currently handle update." ++ nl) ;;
  computations <- gets computation_list ;;
  internal_assert (negb is_producer || negb (set_mem name computations))
    ("Found another computation with the same name." ++ nl) ;;
  old_loop_dims <- gets loop_dims ;;
  print body ;;
  modify (fun cg => with_loop_dims cg old_loop_dims).

(** The visit of a [For] node, lines 638-673. *)
Definition visit_For (print_e : Expr -> M unit) (print : Stmt -> M unit)
           (name : string) (mn ext : Expr) (body : Stmt) : M unit :=
  push_loop_dim name mn ext ;;
  match as_Variable mn with
  | None =>
      internal_error ("Min value of a loop should have been a variable." ++ nl)
  | Some min_name =>
      match as_Variable ext with
      | None =>
          internal_error ("Extent of a loop should have been a variable." ++ nl)
      | Some extent_name =>
          min_val <- scope_get min_name ;;
          extent_val <- scope_get extent_name ;;
          sc <- gets scope ;;
          let replacements := for_replacements sc min_name extent_name in
          let min_val := substitute replacements min_val in
          let min_val := substitute replacements min_val in
          let extent_val := substitute replacements extent_val in
          let extent_val := substitute replacements extent_val in
          do_indent ;;
          emit ("// Define loop bounds for dimension " ++ dq ++ name ++ dq
                ++ "." ++ nl) ;;
          define_constant print_e min_name min_val ;;
          define_constant print_e extent_name extent_val ;;
          emit nl ;;
          print body ;;
          pop_loop_dim
      end
  end.

(** The visit of a [Provide] node, lines 683-721. *)
Definition visit_Provide (print_e : Expr -> M unit) (name : string)
           (values args : list Expr) : M unit :=
  computations <- gets computation_list ;;
  internal_assert (negb (set_mem name computations))
    ("Duplicate computation is not currently supported." ++ nl) ;;
  temporaries <- gets temporary_buffers ;;
  outputs <- gets output_buffers ;;
  internal_assert (set_mem ("buff_" ++ name) temporaries
                   || set_mem ("buff_" ++ name) outputs)
    ("The buffer should have been allocated previously." ++ nl) ;;
  user_assert
    (forallb (fun a => match as_Variable a with Some _ => true | None => false end)
             args)
    ("Expect args of provide to be loop dims for now "
     ++ "(doesn't currently handle update)." ++ nl) ;;
  match values with
  | [value] =>
      do_indent ;;
      emit ("coli::computation " ++ name ++ "(" ++ dq) ;;
      add_indent (5 * tab_size) ;;
      dims <- gets loop_dims ;;
      let dims_str := to_string show_expr args in
      let symbolic_str := get_loop_bound_vars dims in
      (if String.eqb symbolic_str EmptyString
       then emit ("{" ++ name ++ dims_str ++ ": " ++ dq ++ nl)
       else emit (get_loop_bound_vars dims ++ "->{" ++ name ++ dims_str
                  ++ ": " ++ dq ++ nl)) ;;
      do_indent ;;
      emit (dq ++ get_loop_bounds dims ++ "}" ++ dq ++ ", " ++ nl) ;;
      do_indent ;;
      print_e value ;;
      emit ", true, " ;;
      t <- halide_type_to_coli_type_str (type_of value) ;;
      f <- gets func ;;
      emit (t ++ ", &" ++ f ++ ");" ++ nl) ;;
      add_indent (- (5 * tab_size)) ;;
      let access_str :=
        "{" ++ name ++ dims_str ++ "->" ++ "buff_" ++ name ++ dims_str ++ "}" in
      do_indent ;;
      emit (name ++ ".set_access(" ++ dq ++ access_str ++ dq ++ ");" ++ nl) ;;
      insert_computation name
  | _ =>
      user_error ("Expect 1D store (no tuple) in the Provide node for now." ++ nl)
  end.

(** The first loop of the visit of a [Realize] node: neighbouring types
    are equal. *)
Fixpoint same_types (types : list Type_) : bool :=
  match types with
  | a :: (b :: _) as rest => Type_eqb a b && same_types rest
  | _ => true
  end.

(** The visit of a [Realize] node, lines 723-765. *)
Definition visit_Realize (print_e : Expr -> M unit) (print : Stmt -> M unit)
           (name : string) (types : list Type_) (bounds : list Range)
           (body : Stmt) : M unit :=
  temporaries <- gets temporary_buffers ;;
  user_assert (negb (set_mem ("buff_" ++ name) temporaries))
    ("Duplicate allocation (i.e. duplicate compute) is not currently supported."
     ++ nl) ;;
  user_assert (same_types types)
    ("Realize node should have the same types for all dimensions for now." ++ nl) ;;
  user_assert (forallb (fun r => is_zero (min r)) bounds)
    ("Bound of realize node should start from 0 for now." ++ nl) ;;
  do_indent ;;
  let buffer_name := "buff_" ++ name in
  do_indent ;;
  emit ("coli::buffer " ++ buffer_name ++ "(" ++ dq ++ buffer_name ++ dq ++ ", "
        ++ string_of_nat (List.length bounds) ++ ", ") ;;
  emit "{" ;;
  print_separated print_e (map extent bounds) ;;
  emit "}, " ;;
  match types with
  | [] => stuck EmptyVector
  | type0 :: _ =>
      t <- halide_type_to_coli_type_str type0 ;;
      f <- gets func ;;
      emit (t ++ ", NULL, coli::a_temporary, " ++ "&" ++ f ++ ");" ++ nl) ;;
      insert_temporary_buffer buffer_name ;;
      print body
  end.

(** The visit of a [Block] node, lines 786-789. *)
Definition visit_Block (print : Stmt -> M unit) (first : Stmt)
           (rest : option Stmt) : M unit :=
  print first ;;
  match rest with
  | Some r => print r
  | None => ret tt
  end.

(** The dispatch of [s.accept(this)]. *)
Definition visit_stmt (print_e : Expr -> M unit) (print : Stmt -> M unit)
           (s : Stmt) : M unit :=
  match s with
  | LetStmt name value body => visit_LetStmt print name value body
  | AssertStmt _ _ => ret tt
  | ProducerConsumer name is_producer body =>
      visit_ProducerConsumer print name is_producer body
  | For name mn ext body => visit_For print_e print name mn ext body
  | Store _ _ _ =>
      user_error ("Should pass the unflatten version of Store to COLi"
                  ++ nl ++ "." ++ nl)
  | Provide name values args => visit_Provide print_e name values args
  | Allocate _ _ _ _ _ =>
      user_error ("Should pass the unflatten version of Allocate to COLi"
                  ++ nl ++ "." ++ nl)
  | Free _ => user_error ("Conversion of Free to COLi is not supported." ++ nl)
  | Realize name types bounds _ body =>
      visit_Realize print_e print name types bounds body
  | Block first rest => visit_Block print first rest
  | IfThenElse _ then_case _ => print then_case
  | Evaluate _ => ret tt
  end.

(** [CodeGen_Coli::print(Stmt)] (lines 57-62). *)
Fixpoint print_stmt (fuel : nat) (s : Stmt) : M unit :=
  match fuel with
  | O => stuck OutOfFuel
  | S k =>
      visit_stmt (print_expr k) (print_stmt k) (substitute_in_all_lets_stmt s)
  end.

(** ** The constructor (lines 179-295) *)

(** The inner loop over the extents of one output: the scope bindings of
    the bounds, and the text of [sizes] between the braces. *)
Fixpoint output_sizes (fname : string) (i : nat) (buffer_extents : list Z)
  : M string :=
  match buffer_extents with
  | [] => ret EmptyString
  | e :: rest =>
      let min_str := print_name (fname ++ ".min." ++ string_of_nat i) in
      let extent_str := print_name (fname ++ ".extent." ++ string_of_nat i) in
      scope_push min_str (make_const_i32 0) ;;
      scope_push extent_str (make_const_i32 e) ;;
      tail <- output_sizes fname (S i) rest ;;
      ret ("coli::expr(" ++ string_of_Z e ++ ")"
           ++ match rest with [] => EmptyString | _ => ", " end ++ tail)
  end.

Definition allocate_output (f : Function) (buffer_extents : list Z)
           (type : Type_) : M unit :=
  internal_assert (List.length buffer_extents =? List.length (fargs f))%nat
    "buffer_extents.size() == f.args().size()" ;;
  inner <- output_sizes (fname f) 0 buffer_extents ;;
  let sizes := "{" ++ inner ++ "}" in
  let buffer_name := "buff_" ++ fname f in
  do_indent ;;
  emit ("coli::buffer " ++ buffer_name ++ "(" ++ dq ++ buffer_name ++ dq ++ ", "
        ++ string_of_nat (List.length (fargs f)) ++ ", " ++ sizes ++ ", ") ;;
  t <- halide_type_to_coli_type_str type ;;
  fn <- gets func ;;
  emit (t ++ ", NULL, coli::a_output, " ++ "&" ++ fn ++ ");" ++ nl) ;;
  insert_output_buffer buffer_name.

Fixpoint allocate_outputs (outputs : list Function)
         (extents : list (list Z)) (types : list Type_) : M unit :=
  match outputs, extents, types with
  | f :: outputs', e :: extents', t :: types' =>
      allocate_output f e t ;; allocate_outputs outputs' extents' types'
  | _, _, _ => ret tt
  end.

(** The inner loop over the extents of one input: the names of
    [dummy_dims], the loop dimensions pushed, and the text of [sizes]. *)
Fixpoint input_sizes (i : nat) (buffer_extents : list Z)
  : M (list string * string) :=
  match buffer_extents with
  | [] => ret ([], EmptyString)
  | e :: rest =>
      let dim := "i" ++ string_of_nat i in
      push_loop_dim dim (make_const_i32 0) (make_const_i32 e) ;;
      tail <- input_sizes (S i) rest ;;
      ret (dim :: fst tail,
           "coli::expr(" ++ string_of_Z e ++ ")"
           ++ match rest with [] => EmptyString | _ => ", " end ++ snd tail)
  end.

Fixpoint pop_loop_dims (count : nat) : M unit :=
  match count with
  | O => ret tt
  | S k => pop_loop_dim ;; pop_loop_dims k
  end.

Definition bind_input (input_name : string) (buffer_extents : list Z)
           (type : Type_) : M unit :=
  dims_sizes <- input_sizes 0 buffer_extents ;;
  let dummy_dims := fst dims_sizes in
  let sizes := "{" ++ snd dims_sizes ++ "}" in
  let buffer_name := "buff_" ++ input_name in
  do_indent ;;
  emit ("coli::buffer " ++ buffer_name ++ "(" ++ dq ++ buffer_name ++ dq ++ ", "
        ++ string_of_nat (List.length buffer_extents) ++ ", " ++ sizes ++ ", ") ;;
  t <- halide_type_to_coli_type_str type ;;
  fn <- gets func ;;
  emit (t ++ ", NULL, coli::a_input, " ++ "&" ++ fn ++ ");" ++ nl) ;;
  insert_input_buffer buffer_name ;;
  let dims_str := to_string (fun d : string => d) dummy_dims in
  dims <- gets loop_dims ;;
  let symbolic_str := get_loop_bound_vars dims in
  let iter_space_str :=
    if String.eqb symbolic_str EmptyString
    then "{" ++ input_name ++ dims_str ++ ": " ++ get_loop_bounds dims ++ "}"
    else get_loop_bound_vars dims ++ "->{" ++ input_name ++ dims_str ++ ": "
         ++ get_loop_bounds dims ++ "}" in
  do_indent ;;
  emit ("coli::computation " ++ input_name ++ "(" ++ dq ++ iter_space_str ++ dq
        ++ ", " ++ "expr(), false, ") ;;
  t <- halide_type_to_coli_type_str type ;;
  emit (t ++ ", &" ++ fn ++ ");" ++ nl) ;;
  let access_str :=
    "{" ++ input_name ++ dims_str ++ "->" ++ "buff_" ++ input_name ++ dims_str
    ++ "}" in
  do_indent ;;
  emit (input_name ++ ".set_access(" ++ dq ++ access_str ++ dq ++ ");" ++ nl) ;;
  emit nl ;;
  insert_computation input_name ;;
  pop_loop_dims (List.length buffer_extents).

Fixpoint bind_inputs (inputs : list string) (extents : list (list Z))
         (types : list Type_) : M unit :=
  match inputs, extents, types with
  | n :: inputs', e :: extents', t :: types' =>
      bind_input n e t ;; bind_inputs inputs' extents' types'
  | _, _, _ => ret tt
  end.

(** The arguments of the constructor after [dest] and [pipeline_name]. *)
Record Buffers := mkBuffers {
  outputs : list Function;
  output_buffer_extents : list (list Z);
  output_buffer_types : list Type_;
  inputs : list string;
  input_buffer_extents : list (list Z);
  input_buffer_types : list Type_
}.

Definition CodeGen_Coli_ctor (b : Buffers) : M unit :=
  internal_assert
    (List.length (outputs b) =? List.length (output_buffer_extents b))%nat
    "outputs.size() == output_buffer_extents.size()" ;;
  internal_assert
    (List.length (output_buffer_extents b) =? List.length (output_buffer_types b))%nat
    "output_buffer_extents.size() == output_buffer_types.size()" ;;
  internal_assert
    (List.length (inputs b) =? List.length (input_buffer_extents b))%nat
    "inputs.size() == input_buffer_extents.size()" ;;
  internal_assert
    (List.length (input_buffer_extents b) =? List.length (input_buffer_types b))%nat
    "input_buffer_extents.size() == input_buffer_types.size()" ;;
  emit (headers ++ nl ++ nl) ;;
  emit ("using namespace coli;" ++ nl ++ nl) ;;
  emit ("int main(int argc, char **argv)" ++ nl) ;;
  emit ("{" ++ nl) ;;
  add_indent tab_size ;;
  do_indent ;;
  emit ("// Set default coli options." ++ nl) ;;
  do_indent ;;
  emit ("global::set_default_coli_options();" ++ nl ++ nl) ;;
  do_indent ;;
  f <- gets func ;;
  emit ("coli::function " ++ f ++ "(" ++ dq ++ f ++ dq ++ ")" ++ ";" ++ nl) ;;
  allocate_outputs (outputs b) (output_buffer_extents b) (output_buffer_types b) ;;
  bind_inputs (inputs b) (input_buffer_extents b) (input_buffer_types b).

(** The state of a generator whose stream [dest] holds no text yet:
    [IRPrinter(dest)] and [func(pipeline_name)]. *)
Definition initial (pipeline_name : string) : CodeGen_Coli :=
  mkCodeGen EmptyString 0 pipeline_name Scope.empty [] [] [] [] [] [].

(** ** The destructor (lines 297-339) *)

(** The loop over [output_buffers]: [count] and [buffers_stream]. *)
Fixpoint output_arguments (it : list string) (count : Z)
         (buffers_stream : string) : Z * string :=
  match it with
  | [] => (count, buffers_stream)
  | name :: rest =>
      let count := (count + 1)%Z in
      let buffers_stream := buffers_stream ++ "&" ++ name in
      let buffers_stream :=
        match rest with [] => buffers_stream | _ => buffers_stream ++ ", " end in
      output_arguments rest count buffers_stream
  end.

(** The loop over [input_buffers]. *)
Fixpoint input_arguments (it : list string) (count : Z) (start : bool)
         (buffers_stream : string) : string :=
  match it with
  | [] => buffers_stream
  | name :: rest =>
      let fire := (0 <? count)%Z && start in
      let start := if fire then false else start in
      let buffers_stream :=
        if fire then buffers_stream ++ ", " else buffers_stream in
      let buffers_stream := buffers_stream ++ "&" ++ name in
      let buffers_stream :=
        match rest with [] => buffers_stream | _ => buffers_stream ++ ", " end in
      input_arguments rest count start buffers_stream
  end.

Definition CodeGen_Coli_dtor : M unit :=
  outs <- gets output_buffers ;;
  ins <- gets input_buffers ;;
  let '(count, buffers_stream) := output_arguments outs 0 "{" in
  let buffers_stream := input_arguments ins count true buffers_stream in
  let buffers_stream := buffers_stream ++ "}" in
  f <- gets func ;;
  emit nl ;;
  do_indent ;;
  emit (f ++ ".set_arguments(" ++ buffers_stream ++ ");" ++ nl) ;;
  do_indent ;;
  emit (f ++ ".gen_isl_ast();" ++ nl) ;;
  do_indent ;;
  emit (f ++ ".gen_halide_stmt();" ++ nl) ;;
  do_indent ;;
  emit (f ++ ".dump_halide_stmt();" ++ nl) ;;
  do_indent ;;
  emit (f ++ ".gen_halide_obj(" ++ dq ++ "build/generated_" ++ f ++ "_test.o"
        ++ dq ++ ");" ++ nl) ;;
  add_indent (- tab_size) ;;
  do_indent ;;
  emit ("}" ++ nl ++ nl).

(** ** [print_to_coli] (lines 796-812)

    The generator [cg] is constructed, prints the normalized statement
    and is destroyed at the end of the function; a fatal diagnostic ends
    the run where it is raised. *)
Definition print_to_coli (fuel : nat) (s : Stmt) (pipeline_name : string)
           (b : Buffers) : Outcome unit * CodeGen_Coli :=
  let s := normalize_stmt s in
  (CodeGen_Coli_ctor b ;; print_stmt fuel s ;; CodeGen_Coli_dtor)
    (initial pipeline_name).

End Statements.

(** ** A host to run the generator on concrete trees *)

Module Reference.

(** Modelled from the spec: [substitute] of Halide's Substitute.h is not
    among the sources; it replaces the variables named in the map, and a
    let hides its own name in its body. *)
Fixpoint replace_vars (m : StrMap Expr) (e : Expr) : Expr :=
  match e with
  | Variable_ _ name _ _ =>
      match map_find name m with Some r => r | None => e end
  | Cast t v => Cast t (replace_vars m v)
  | Binary op a b => Binary op (replace_vars m a) (replace_vars m b)
  | Not a => Not (replace_vars m a)
  | Select c t f => Select (replace_vars m c) (replace_vars m t) (replace_vars m f)
  | Load t name index => Load t name (replace_vars m index)
  | Ramp base stride n => Ramp (replace_vars m base) (replace_vars m stride) n
  | Broadcast v n => Broadcast (replace_vars m v) n
  | Call t name args ct => Call t name (map (replace_vars m) args) ct
  | Let_ name value body =>
      Let_ name (replace_vars m value)
           (replace_vars (filter (fun kv => negb (String.eqb (fst kv) name)) m) body)
  | IntImm _ _ | UIntImm _ _ | FloatImm _ _ | StringImm _ => e
  end.

(** Modelled from the spec: [substitute_in_all_lets] is not among the
    sources; section 4.4 has it inline every expression-level let. *)
Fixpoint inline_lets (e : Expr) : Expr :=
  match e with
  | Let_ name value body =>
      replace_vars [(name, inline_lets value)]
                 (inline_lets body)
  | Cast t v => Cast t (inline_lets v)
  | Binary op a b =>
      Binary op (inline_lets a) (inline_lets b)
  | Not a => Not (inline_lets a)
  | Select c t f =>
      Select (inline_lets c) (inline_lets t)
             (inline_lets f)
  | Load t name index => Load t name (inline_lets index)
  | Ramp base stride n =>
      Ramp (inline_lets base) (inline_lets stride) n
  | Broadcast v n => Broadcast (inline_lets v) n
  | Call t name args ct => Call t name (map inline_lets args) ct
  | Variable_ _ _ _ _ | IntImm _ _ | UIntImm _ _ | FloatImm _ _
  | StringImm _ => e
  end.

(** Modelled from the spec: the same pass over the bounds of a
    realization, which is missing with it. *)
Definition inline_range (r : Range) : Range :=
  mkRange (inline_lets (min r)) (inline_lets (extent r)).

(** Modelled from the spec: [substitute_in_all_lets] on a statement is
    missing; it inlines the expression-level lets of every expression of
    the tree and keeps the statement-level ones. *)
Fixpoint inline_lets_stmt (s : Stmt) : Stmt :=
  match s with
  | LetStmt name value body =>
      LetStmt name (inline_lets value)
              (inline_lets_stmt body)
  | AssertStmt c m =>
      AssertStmt (inline_lets c) (inline_lets m)
  | ProducerConsumer name p body =>
      ProducerConsumer name p (inline_lets_stmt body)
  | For name mn ext body =>
      For name (inline_lets mn) (inline_lets ext)
          (inline_lets_stmt body)
  | Store name value index =>
      Store name (inline_lets value) (inline_lets index)
  | Provide name values args =>
      Provide name (map inline_lets values)
              (map inline_lets args)
  | Allocate name t extents c body =>
      Allocate name t (map inline_lets extents)
               (inline_lets c) (inline_lets_stmt body)
  | Free name => Free name
  | Realize name types bounds c body =>
      Realize name types (map inline_range bounds) (inline_lets c)
              (inline_lets_stmt body)
  | Block first rest =>
      Block (inline_lets_stmt first)
            (match rest with
             | Some r => Some (inline_lets_stmt r)
             | None => None
             end)
  | IfThenElse c t e =>
      IfThenElse (inline_lets c) (inline_lets_stmt t)
                 (match e with
                  | Some r => Some (inline_lets_stmt r)
                  | None => None
                  end)
  | Evaluate v => Evaluate (inline_lets v)
  end.

(** Modelled from the spec: [is_const] of IROperator.h is not among the
    sources; the compile-time constants of section 4.3 are the literals,
    also under a cast, a ramp or a broadcast. *)
Fixpoint literal (e : Expr) : bool :=
  match e with
  | IntImm _ _ | UIntImm _ _ | FloatImm _ _ | StringImm _ => true
  | Cast _ v => literal v
  | Ramp base stride _ => literal base && literal stride
  | Broadcast v _ => literal v
  | _ => false
  end.

(** Modelled from the spec: [is_zero] of IROperator.h is not among the
    sources; a lower bound is "exactly zero" (section 4.4) when it is a
    zero literal, also under a cast or a broadcast. *)
Fixpoint zero_literal (e : Expr) : bool :=
  match e with
  | IntImm _ v | UIntImm _ v => (v =? 0)%Z
  | FloatImm _ v => PrimFloat.eqb v PrimFloat.zero
  | Cast _ v => zero_literal v
  | Broadcast v _ => zero_literal v
  | _ => false
  end.

(** Modelled from the spec: [Bool(lanes)] of the host type system, which
    is missing. *)
Definition Bool_ (n : Z) : Type_ := mkType Bool 1 n.

(** Modelled from the spec: [Expr::type()] belongs to the host IR, which
    is not among the sources; a node has the type it stores, or the type
    its operands give it. *)
Fixpoint node_type (e : Expr) : Type_ :=
  match e with
  | IntImm t _ | UIntImm t _ | FloatImm t _ | Cast t _
  | Variable_ t _ _ _ | Load t _ _ | Call t _ _ _ => t
  | StringImm _ => mkType Handle 64 1
  | Binary op a _ =>
      match op with
      | Add | Sub | Mul | Div | Mod | Min | Max => node_type a
      | _ => Bool_ (lanes (node_type a))
      end
  | Not a => Bool_ (lanes (node_type a))
  | Select _ t _ => node_type t
  | Ramp base _ n => mkType (code (node_type base)) (bits (node_type base)) n
  | Broadcast v n => mkType (code (node_type v)) (bits (node_type v)) n
  | Let_ _ _ body => node_type body
  end.

(** Modelled from the spec: the operator symbols of [IRPrinter], which is
    missing. *)
Definition show_op (op : BinaryOp) : string :=
  match op with
  | Add => " + " | Sub => " - " | Mul => "*" | Div => "/" | Mod => " % "
  | Min => " min " | Max => " max "
  | EQ => " == " | NE => " != " | LT => " < " | LE => " <= "
  | GT => " > " | GE => " >= " | And => " && " | Or => " || "
  end.

(** Modelled from the spec: [IRPrinter], which renders the expressions of
    [to_string], is not among the sources; variables print as their name
    and integer literals in decimal. *)
Fixpoint render (e : Expr) : string :=
  match e with
  | IntImm _ v | UIntImm _ v => string_of_Z v
  | FloatImm _ _ => "<float>"
  | StringImm v => dq ++ v ++ dq
  | Cast _ v => "cast(" ++ render v ++ ")"
  | Variable_ _ name _ _ => name
  | Binary op a b => "(" ++ render a ++ show_op op ++ render b ++ ")"
  | Not a => "!" ++ render a
  | Select c t f =>
      "select(" ++ render c ++ ", " ++ render t ++ ", " ++ render f
      ++ ")"
  | Load _ name index => name ++ "[" ++ render index ++ "]"
  | Ramp base stride n =>
      "ramp(" ++ render base ++ ", " ++ render stride ++ ", "
      ++ string_of_Z n ++ ")"
  | Broadcast v n => "x" ++ string_of_Z n ++ "(" ++ render v ++ ")"
  | Call _ name args _ => name ++ "(" ++ separated render ", " args ++ ")"
  | Let_ name value body =>
      "(let " ++ name ++ " = " ++ render value ++ " in " ++ render body
      ++ ")"
  end.

(** Modelled from the spec: [Loop::to_string] is declared in the header
    of the generator, which is not among the sources; section 4.3 has
    each dimension render one range predicate from its min and extent. *)
Definition render_loop (l : Loop) : string :=
  render (loop_min l) ++ " <= " ++ loop_name l ++ " < "
  ++ render (Binary Add (loop_min l) (loop_extent l)).

(** Modelled from the spec: [simplify] is not among the sources; this
    host rewrites nothing. *)
Definition keep (e : Expr) : Expr := e.

(** Modelled from the spec: [Call::is_pure] belongs to the host IR, which
    is not among the sources, and the spec does not describe it; this host
    takes as pure the calls of the two call types named pure.  No property
    below depends on that choice. *)
Definition pure_call (e : Expr) : bool :=
  match e with
  | Call _ _ _ PureExtern | Call _ _ _ PureIntrinsic => true
  | _ => false
  end.

#[export] Instance host : Host := {
  substitute_in_all_lets := inline_lets;
  substitute_in_all_lets_stmt := inline_lets_stmt;
  simplify := keep;
  substitute := replace_vars;
  is_const := literal;
  is_zero := zero_literal;
  type_of := node_type;
  show_expr := render;
  Loop_to_string := render_loop;
  is_pure := pure_call
}.

End Reference.

(** ** The properties, in the words of the specification *)

Module Spec.

(** Section 4.1: the character map of the sanitizer. *)
Definition sanitize_char (c : ascii) : string :=
  if Ascii.eqb c "." then "_"
  else if Ascii.eqb c "$" then "__"
  else if isalnum c || Ascii.eqb c "_" then String c EmptyString
  else "___".

(** Section 4.1: a leading underscore for a name that begins with an
    alphabetic character, then the image of every character. *)
Definition sanitize (name : string) : string :=
  (match name with
   | String c _ => if isalpha c then "_" else EmptyString
   | EmptyString => EmptyString
   end)
  ++ String.concat EmptyString (map sanitize_char (list_ascii_of_string name)).

(** The characters a sanitized name is made of. *)
Definition clean (c : ascii) : bool := Ascii.eqb c "_" || isalnum c.

Fixpoint all_clean (s : string) : bool :=
  match s with
  | EmptyString => true
  | String c r => clean c && all_clean r
  end.

Section Bounds.

Context {H : Host}.

(** Section 4.3: the min and extent of every active dimension, in push
    order. *)
Definition bounds_in_push_order (dims : list Loop) : list Expr :=
  flat_map (fun d => [loop_min d; loop_extent d]) dims.

(** Section 4.3 and 8: [boundVars()] keeps exactly the bounds that are
    not compile-time constants. *)
Definition boundVars (dims : list Loop) : list Expr :=
  filter (fun e => negb (is_const e)) (bounds_in_push_order dims).

End Bounds.

(** Section 4.5: the argument list of the "bind arguments" call, all
    output buffers then all input buffers. *)
Definition bound_arguments (outs ins : list string) : string :=
  "{" ++ String.concat ", " (map (fun b => "&" ++ b) (outs ++ ins)%list) ++ "}".

Definition pad (n : Z) : string := replicate (Z.to_nat n) " ".

(** Section 4.5: the text of the finalization at indentation [ind]: the
    argument binding, the four fixed calls, the closing of the function
    body. *)
Definition epilogue (f : string) (ind : Z) (outs ins : list string) : string :=
  nl
  ++ pad ind ++ f ++ ".set_arguments(" ++ bound_arguments outs ins ++ ");" ++ nl
  ++ pad ind ++ f ++ ".gen_isl_ast();" ++ nl
  ++ pad ind ++ f ++ ".gen_halide_stmt();" ++ nl
  ++ pad ind ++ f ++ ".dump_halide_stmt();" ++ nl
  ++ pad ind ++ f ++ ".gen_halide_obj(" ++ dq ++ "build/generated_" ++ f
  ++ "_test.o" ++ dq ++ ");" ++ nl
  ++ pad (ind - tab_size) ++ "}" ++ nl ++ nl.

(** A text that ends with the closing of the function body, the last
    thing the finalization writes. *)
Definition closes_function_body (out : string) : Prop :=
  exists before, out = before ++ "}" ++ nl ++ nl.

(** A text with a last visible character, which is not a closing brace. *)
Definition visible_tail (s : string) : Prop :=
  exists c, last_visible s = Some c /\ c <> "}"%char.

Definition nonempty {T} (l : list T) : bool :=
  match l with [] => false | _ => true end.

(** A text whose last character other than a line break is not a closing
    brace. *)
Definition open_tail (s : string) : Prop := last_visible s <> Some "}"%char.

(** The generator only adds: the stream is extended by a text with an
    open tail, and every registered computation stays registered. *)
Definition grows (cg cg' : CodeGen_Coli) : Prop :=
  (exists w, stream cg' = stream cg ++ w /\ open_tail w)
  /\ (forall x, set_mem x (computation_list cg) = true ->
                set_mem x (computation_list cg') = true).

(** A method under which the state only grows, however it ends. *)
Definition Grows {A} (m : M A) : Prop := forall cg, grows cg (snd (m cg)).

End Spec.

Import Spec.

(** ** Trees and states for concrete runs *)

Module Samples.

Definition var (name : string) : Expr := Variable_ Int32 name false false.

(** One output [f] over [x], of extent 4. *)
Definition one_output : Buffers :=
  mkBuffers [mkFunction "f" ["x"]] [[4%Z]] [Int32] [] [] [].

(** A store to [f] of a string literal. *)
Definition string_store : Stmt :=
  Provide "f" [StringImm "text"] [var "x"].

(** A store to [f] of the literal 1. *)
Definition store_one : Stmt := Provide "f" [make_const_i32 1] [var "x"].

(** Two stores to [f] in sequence. *)
Definition two_stores : Stmt := Block store_one (Some store_one).

(** A generator in which the output buffer of [f] is declared. *)
Definition declared : CodeGen_Coli :=
  with_output_buffers (initial "p") ["buff_f"].

(** The scope inside [let n = 7, m = 0, e = m + 4]. *)
Definition bounds_scope : Scope.t :=
  Scope.push "e" (Binary Add (var "m") (make_const_i32 4))
    (Scope.push "m" (make_const_i32 0)
       (Scope.push "n" (make_const_i32 7) Scope.empty)).

(** A generator inside a loop over [y], with bounds [m] and [e] in
    scope. *)
Definition in_loop : CodeGen_Coli :=
  with_scope
    (with_loop_dims (initial "p")
       [mkLoop "y" (make_const_i32 0) (make_const_i32 8)])
    bounds_scope.

(** A loop over [x] from [m], of extent [e]. *)
Definition loop_x : Stmt := For "x" (var "m") (var "e") (Evaluate (make_const_i32 0)).

End Samples.

(** ** Judgements on methods, for the properties of the traversal *)

Module Logic.

(** A predicate on the state that a method keeps, however it ends. *)
Definition Inv {A} (P : CodeGen_Coli -> Prop) (m : M A) : Prop :=
  forall cg, P cg -> P (snd (m cg)).

(** From a state in [P], a run of the method that returns ends in [Q]. *)
Definition Triple {A} (P : CodeGen_Coli -> Prop) (m : M A)
           (Q : CodeGen_Coli -> Prop) : Prop :=
  forall cg a cg', P cg -> m cg = (Done a, cg') -> Q cg'.

(** Every member but the stream is the one of [c0]. *)
Definition rest_of (c0 cg : CodeGen_Coli) : Prop :=
  with_stream cg (stream c0) = c0.

(** The members a traversal has no write to are those of [c0], and the
    name [x], if it is a temporary buffer or a constant, stays one. *)
Definition declared_in (c0 : CodeGen_Coli) (tmp cst : string)
           (cg : CodeGen_Coli) : Prop :=
  func cg = func c0
  /\ output_buffers cg = output_buffers c0
  /\ input_buffers cg = input_buffers c0
  /\ (set_mem tmp (temporary_buffers c0) = true ->
      set_mem tmp (temporary_buffers cg) = true)
  /\ (set_mem cst (constant_list c0) = true ->
      set_mem cst (constant_list cg) = true).

(** The loop-dimension stack is [dims] and the indentation is [ind]. *)
Definition at_depth (dims : list Loop) (ind : Z) (cg : CodeGen_Coli) : Prop :=
  loop_dims cg = dims /\ indent cg = ind.

(** No name of the scope is left with an empty stack of bindings. *)
Definition scope_ok (sc : Scope.t) : Prop :=
  Forall (fun kv : string * list Expr => snd kv <> []) sc.

Definition in_scope (sc : Scope.t) (cg : CodeGen_Coli) : Prop := scope cg = sc.

(** A predicate that no write to one member can break. *)
Definition stable_stream (P : CodeGen_Coli -> Prop) : Prop :=
  forall cg v, P cg -> P (with_stream cg v).
Definition stable_indent (P : CodeGen_Coli -> Prop) : Prop :=
  forall cg v, P cg -> P (with_indent cg v).
Definition stable_scope (P : CodeGen_Coli -> Prop) : Prop :=
  forall cg v, P cg -> P (with_scope cg v).
Definition stable_loop_dims (P : CodeGen_Coli -> Prop) : Prop :=
  forall cg v, P cg -> P (with_loop_dims cg v).

(** A predicate that no insertion into one registry can break. *)
Definition stable_outputs (P : CodeGen_Coli -> Prop) : Prop :=
  forall cg x, P cg -> P (with_output_buffers cg (set_insert x (output_buffers cg))).
Definition stable_inputs (P : CodeGen_Coli -> Prop) : Prop :=
  forall cg x, P cg -> P (with_input_buffers cg (set_insert x (input_buffers cg))).
Definition stable_temporaries (P : CodeGen_Coli -> Prop) : Prop :=
  forall cg x,
    P cg -> P (with_temporary_buffers cg (set_insert x (temporary_buffers cg))).
Definition stable_computations (P : CodeGen_Coli -> Prop) : Prop :=
  forall cg x,
    P cg -> P (with_computation_list cg (set_insert x (computation_list cg))).
Definition stable_constants (P : CodeGen_Coli -> Prop) : Prop :=
  forall cg x, P cg -> P (with_constant_list cg (set_insert x (constant_list cg))).

(** Membership in the registries. *)
Definition has_constant (x : string) (cg : CodeGen_Coli) : Prop :=
  set_mem x (constant_list cg) = true.
Definition has_computation (x : string) (cg : CodeGen_Coli) : Prop :=
  set_mem x (computation_list cg) = true.
Definition has_temporary (x : string) (cg : CodeGen_Coli) : Prop :=
  set_mem x (temporary_buffers cg) = true.

(** The bounds of a loop clash: they are one variable, or one of them is a
    constant already. *)
Definition clash (min_name extent_name : string) (cg : CodeGen_Coli) : Prop :=
  min_name = extent_name
  \/ has_constant min_name cg \/ has_constant extent_name cg.

(** The names of a registry are exactly those in [S]. *)
Definition outputs_are (S : string -> Prop) (cg : CodeGen_Coli) : Prop :=
  forall x, set_mem x (output_buffers cg) = true <-> S x.
Definition inputs_are (S : string -> Prop) (cg : CodeGen_Coli) : Prop :=
  forall x, set_mem x (input_buffers cg) = true <-> S x.
Definition computations_are (S : string -> Prop) (cg : CodeGen_Coli) : Prop :=
  forall x, set_mem x (computation_list cg) = true <-> S x.

(** The members the constructor has no write to are those of [c0]. *)
Definition untouched (c0 cg : CodeGen_Coli) : Prop :=
  func cg = func c0
  /\ temporary_buffers cg = temporary_buffers c0
  /\ constant_list cg = constant_list c0.

(** The loop dimensions that the constructor pushes for an input of the
    given extents, [i0], [i1], ... from the index [i] on. *)
Fixpoint dummy_loops (i : nat) (buffer_extents : list Z) : list Loop :=
  match buffer_extents with
  | [] => []
  | e :: rest =>
      mkLoop ("i" ++ string_of_nat i) (make_const_i32 0) (make_const_i32 e)
      :: dummy_loops (S i) rest
  end.

(** The name of the buffer of a function or an input. *)
Definition buff (name : string) : string := "buff_" ++ name.

(** The element types [halide_type_to_coli_type_str] has a name for. *)
Definition supported (t : Type_) : bool :=
  is_uint t || is_int t
  || (is_float t && ((bits t =? 32)%Z || (bits t =? 64)%Z))
  || is_bool t.

End Logic.

Import Logic.

(** ** More trees for concrete runs *)

Module Runs.

(** One output [f] over [x], of extent 4, and one input [in] of extent 4. *)
Definition in_out : Buffers :=
  mkBuffers [mkFunction "f" ["x"]] [[4%Z]] [Int32] ["in"] [[4%Z]] [Int32].

(** [let lo = 0, n = 4 in for x from lo, n times: f(x) = in(x) + 1]. *)
Definition increment : Stmt :=
  LetStmt "lo" (make_const_i32 0)
    (LetStmt "n" (make_const_i32 4)
       (For "x" (Samples.var "lo") (Samples.var "n")
            (Provide "f"
               [Binary Add (Call Int32 "in" [Samples.var "x"] Image)
                       (make_const_i32 1)]
               [Samples.var "x"]))).

(** A realization of [g] over one dimension from 0, around a store to it. *)
Definition realize_g : Stmt :=
  Realize "g" [Int32] [mkRange (make_const_i32 0) (make_const_i32 4)]
          (make_const_i32 1)
          (Provide "g" [make_const_i32 1] [Samples.var "x"]).


End Runs.

(** * Properties *)

(** ** Text *)

Lemma append_nil_r (s : string) : s ++ EmptyString = s.
Proof. induction s; simpl; congruence. Qed.

Lemma append_assoc (a b c : string) : (a ++ b) ++ c = a ++ b ++ c.
Proof. induction a; simpl; congruence. Qed.

Lemma last_visible_app (a b : string) :
  last_visible (a ++ b) =
  match last_visible b with Some d => Some d | None => last_visible a end.
Proof.
  induction a as [|c a IH]; simpl.
  - destruct (last_visible b); reflexivity.
  - rewrite IH. destruct (last_visible b); reflexivity.
Qed.

(** ** The sanitizer *)

Lemma clean_not_dot (c : ascii) : clean c = true -> Ascii.eqb c "." = false.
Proof.
  intros Hc. destruct (Ascii.eqb_spec c "."%char) as [->|]; [|reflexivity].
  discriminate Hc.
Qed.

Lemma clean_not_dollar (c : ascii) : clean c = true -> Ascii.eqb c "$" = false.
Proof.
  intros Hc. destruct (Ascii.eqb_spec c "$"%char) as [->|]; [|reflexivity].
  discriminate Hc.
Qed.

Lemma print_name_char_clean (c : ascii) :
  clean c = true -> print_name_char c = String c EmptyString.
Proof.
  intros Hc. unfold print_name_char.
  rewrite (clean_not_dot c Hc), (clean_not_dollar c Hc).
  unfold clean in Hc.
  destruct (Ascii.eqb c "_"); [reflexivity|].
  simpl in Hc. rewrite Hc. reflexivity.
Qed.

Lemma print_name_loop_fixes_clean (s : string) :
  all_clean s = true -> print_name_loop s = s.
Proof.
  induction s as [|c s IH]; simpl; [reflexivity|].
  intros Hs. apply andb_true_iff in Hs as [Hc Hs].
  rewrite (print_name_char_clean c Hc), (IH Hs). reflexivity.
Qed.

Lemma all_clean_app (a b : string) :
  all_clean (a ++ b) = all_clean a && all_clean b.
Proof.
  induction a as [|c a IH]; simpl; [reflexivity|].
  rewrite IH, andb_assoc. reflexivity.
Qed.

Lemma print_name_char_all_clean (c : ascii) :
  all_clean (print_name_char c) = true.
Proof.
  unfold print_name_char.
  destruct (Ascii.eqb c "."); [reflexivity|].
  destruct (Ascii.eqb c "$"); [reflexivity|].
  destruct (negb (Ascii.eqb c "_") && negb (isalnum c)) eqn:E; [reflexivity|].
  simpl. unfold clean. rewrite andb_true_r.
  destruct (Ascii.eqb c "_"); [reflexivity|].
  destruct (isalnum c); [reflexivity|discriminate E].
Qed.

Lemma print_name_loop_all_clean (s : string) :
  all_clean (print_name_loop s) = true.
Proof.
  induction s as [|c s IH]; simpl; [reflexivity|].
  rewrite all_clean_app, print_name_char_all_clean, IH. reflexivity.
Qed.

Lemma print_name_all_clean (s : string) : all_clean (print_name s) = true.
Proof.
  unfold print_name. rewrite all_clean_app, print_name_loop_all_clean.
  destruct (isalpha (front s)); reflexivity.
Qed.

Lemma front_print_name_char (c : ascii) (rest : string) :
  isalpha c = false -> isalpha (front (print_name_char c ++ rest)) = false.
Proof.
  intros Hc. unfold print_name_char.
  destruct (Ascii.eqb c "."); [reflexivity|].
  destruct (Ascii.eqb c "$"); [reflexivity|].
  destruct (negb (Ascii.eqb c "_") && negb (isalnum c)); [reflexivity|].
  simpl. exact Hc.
Qed.

Lemma front_print_name (s : string) : isalpha (front (print_name s)) = false.
Proof.
  unfold print_name. destruct (isalpha (front s)) eqn:E; [reflexivity|].
  simpl. destruct s as [|c s]; simpl; [reflexivity|].
  apply front_print_name_char. exact E.
Qed.

Lemma print_name_loop_sanitize (s : string) :
  print_name_loop s
  = String.concat EmptyString (map sanitize_char (list_ascii_of_string s)).
Proof.
  induction s as [|c s IH]; simpl; [reflexivity|].
  rewrite IH.
  assert (Hc : print_name_char c = sanitize_char c).
  { unfold print_name_char, sanitize_char.
    destruct (Ascii.eqb c "."); [reflexivity|].
    destruct (Ascii.eqb c "$"); [reflexivity|].
    destruct (Ascii.eqb c "_"), (isalnum c); reflexivity. }
  rewrite Hc.
  destruct (map sanitize_char (list_ascii_of_string s)) eqn:E; simpl.
  - apply append_nil_r.
  - reflexivity.
Qed.

(** C6: the name sanitizer [print_name] is the map of section 4.1 (an
    underscore before a name whose first character is alphabetic, '.' to
    "_", '$' to "__", any other character that is neither alphanumeric
    nor an underscore to "___", every other character unchanged), and it
    is idempotent: sanitizing a sanitized name changes nothing. *)
Theorem print_name_idempotent (s : string) :
  print_name s = sanitize s /\ print_name (print_name s) = print_name s.
Proof.
  split.
  - unfold print_name, sanitize. rewrite print_name_loop_sanitize.
    destruct s; reflexivity.
  - unfold print_name at 1.
    rewrite front_print_name.
    rewrite (print_name_loop_fixes_clean _ (print_name_all_clean s)).
    reflexivity.
Qed.

(** ** The loop-dimension stack *)

(** The loop that tests for the last index is a join. *)
Lemma separated_concat {T} (show : T -> string) (sep : string) (v : list T) :
  separated show sep v = String.concat sep (map show v).
Proof.
  induction v as [|x rest IH]; [reflexivity|].
  cbn [separated map]. rewrite IH.
  destruct rest as [|y rest]; simpl.
  - apply append_nil_r.
  - reflexivity.
Qed.

Section LoopBounds.

Context {H : Host}.

Lemma relevant_exprs_from (dims : list Loop) (acc : list Expr) :
  fold_left
    (fun (acc : list Expr) d =>
       let acc := if negb (is_const (loop_min d))
                  then (acc ++ [loop_min d])%list else acc in
       if negb (is_const (loop_extent d))
       then (acc ++ [loop_extent d])%list else acc)
    dims acc
  = (acc ++ boundVars dims)%list.
Proof.
  revert acc. induction dims as [|d dims IH]; intros acc; simpl.
  - symmetry. apply app_nil_r.
  - rewrite IH. unfold boundVars. simpl.
    destruct (negb (is_const (loop_min d))),
             (negb (is_const (loop_extent d)));
      simpl; rewrite <- ?app_assoc; reflexivity.
Qed.

Lemma relevant_exprs_boundVars (dims : list Loop) :
  relevant_exprs dims = boundVars dims.
Proof. unfold relevant_exprs. apply relevant_exprs_from. Qed.

(** C7: [get_loop_bound_vars] returns the text of exactly the min and
    extent expressions of the active dimensions that are not compile-time
    constants, in push order: each one as it prints, with ", " between
    every two, in square brackets; every literal bound is left out; and
    it returns the empty string when there is none. *)
Theorem get_loop_bound_vars_boundVars (dims : list Loop) :
  get_loop_bound_vars dims =
  match boundVars dims with
  | [] => EmptyString
  | exprs => "[" ++ String.concat ", " (map show_expr exprs) ++ "]"
  end
  /\ (forall e, In e (boundVars dims) <->
                (exists d, In d dims /\ (e = loop_min d \/ e = loop_extent d))
                /\ is_const e = false).
Proof.
  unfold get_loop_bound_vars. rewrite relevant_exprs_boundVars.
  split.
  - destruct (boundVars dims) as [|x rest]; [reflexivity|].
    unfold to_string. rewrite separated_concat. reflexivity.
  - intros e. unfold boundVars, bounds_in_push_order.
    rewrite filter_In, in_flat_map, negb_true_iff.
    split.
    + intros [[d [Hd He]] Hc]. split; [|exact Hc].
      exists d. split; [exact Hd|].
      simpl in He. destruct He as [<-|[<-|[]]]; auto.
    + intros [[d [Hd He]] Hc]. split; [|exact Hc].
      exists d. split; [exact Hd|].
      simpl. destruct He as [->| ->]; auto.
Qed.

End LoopBounds.

(** Two dimensions, [x] from 0 of extent [n] and [y] from [m] of extent 4:
    the literals are left out and the variables come in push order; with
    literal bounds only the result is empty. *)
Example get_loop_bound_vars_mixed :
  get_loop_bound_vars (H := Reference.host)
    [mkLoop "x" (make_const_i32 0) (Samples.var "n");
     mkLoop "y" (Samples.var "m") (make_const_i32 4)]
  = "[n, m]"
  /\ get_loop_bound_vars (H := Reference.host)
       [mkLoop "i0" (make_const_i32 0) (make_const_i32 4)]
     = EmptyString.
Proof. split; reflexivity. Qed.

(** ** Single visits *)

Section Visits.

Context {H : Host}.

(** C10: a 32-bit float literal emits the fixed text
    "coli::expr((float)op->value);" and a 64-bit one the fixed text
    "coli::expr(op->value);"; the value of the literal is absent from
    both, whatever it is. *)
Theorem visit_FloatImm_fixed_text
        (print : Expr -> M unit) (c : TypeCode) (l : Z)
        (value : PrimFloat.float) (cg : CodeGen_Coli) :
  visit_expr print (FloatImm (mkType c 32 l) value) cg
  = (Done tt, with_stream cg (stream cg ++ "coli::expr((float)op->value);"))
  /\ visit_expr print (FloatImm (mkType c 64 l) value) cg
     = (Done tt, with_stream cg (stream cg ++ "coli::expr(op->value);")).
Proof. split; reflexivity. Qed.

(** C9, as the code has it: an expression-level let that reaches the
    visitor ends the translation with a diagnostic of the user tier
    ([user_error]), not of the internal tier, and writes nothing;
    [print] applies [substitute_in_all_lets] to an expression before it
    dispatches on it. *)
Theorem visit_Let_user_error
        (print : Expr -> M unit) (name : string) (value body : Expr)
        (cg : CodeGen_Coli) (fuel : nat) (e : Expr) :
  visit_expr print (Let_ name value body) cg
  = (Fatal User
       ("Should not have encountered Let expr since we've called "
        ++ "substitute_in_all_lets." ++ nl), cg)
  /\ print_expr (S fuel) e
     = visit_expr (print_expr fuel) (substitute_in_all_lets e).
Proof. split; reflexivity. Qed.

(** C4: the visit of a conditional is the print of its then-branch and
    nothing else: same text, same state, same outcome, so the
    conditional adds no error of its own, and the else-branch, present
    or not, contributes nothing. *)
Theorem visit_IfThenElse_then_only
        (fuel : nat) (condition : Expr) (then_case : Stmt)
        (else_case : option Stmt) (cg : CodeGen_Coli) :
  visit_stmt (print_expr fuel) (print_stmt fuel)
             (IfThenElse condition then_case else_case) cg
  = print_stmt fuel then_case cg
  /\ visit_stmt (print_expr fuel) (print_stmt fuel)
                (IfThenElse condition then_case else_case) cg
     = visit_stmt (print_expr fuel) (print_stmt fuel)
                  (IfThenElse condition then_case None) cg.
Proof. split; reflexivity. Qed.

(** C8: when the body of a producer/consumer node is a single nested
    scope (not a block) and its print returns, the visit returns in the
    state the body left, except that the loop-dimension stack is again
    the one from before the visit, whatever the body did to it. *)
Theorem visit_ProducerConsumer_restores_loop_dims
        (print_e : Expr -> M unit) (print : Stmt -> M unit)
        (name : string) (is_producer : bool) (body : Stmt)
        (cg cg1 : CodeGen_Coli) :
  is_Block body = false ->
  is_producer && set_mem name (computation_list cg) = false ->
  print body cg = (Done tt, cg1) ->
  visit_stmt print_e print (ProducerConsumer name is_producer body) cg
  = (Done tt, with_loop_dims cg1 (loop_dims cg))
  /\ loop_dims
       (snd (visit_stmt print_e print
                        (ProducerConsumer name is_producer body) cg))
     = loop_dims cg.
Proof.
  intros Hb Hp Hbody.
  assert (E : visit_stmt print_e print
                (ProducerConsumer name is_producer body) cg
              = (Done tt, with_loop_dims cg1 (loop_dims cg))).
  { simpl. unfold visit_ProducerConsumer, bind, user_assert, internal_assert,
      gets, modify, ret.
    rewrite Hb. simpl.
    rewrite <- negb_andb, Hp. simpl.
    rewrite Hbody. reflexivity. }
  rewrite E. split; reflexivity.
Qed.

End Visits.

(** A conditional whose else-branch would be a fatal error if it were
    visited: the visit returns, and it wrote only what the then-branch, a
    store of 1 to [f], writes. *)
Example visit_IfThenElse_ignores_failing_else :
  visit_stmt (H := Reference.host)
    (print_expr (H := Reference.host) 3) (print_stmt (H := Reference.host) 3)
    (IfThenElse (Samples.var "c") Samples.store_one (Some (Free "f")))
    Samples.declared
  = print_stmt (H := Reference.host) 3 Samples.store_one Samples.declared
  /\ fst (print_stmt (H := Reference.host) 3 Samples.store_one Samples.declared)
     = Done tt
  /\ tier_of (fst (print_stmt (H := Reference.host) 3 (Free "f") Samples.declared))
     = Some User.
Proof. repeat split; vm_compute; reflexivity. Qed.

(** The visit of a producer node around a loop over [x], in a generator
    that is already inside a loop over [y]. *)
Lemma visit_ProducerConsumer_restores_loop_dims_witness :
  loop_dims
    (snd (visit_stmt (H := Reference.host)
            (print_expr (H := Reference.host) 3)
            (print_stmt (H := Reference.host) 3)
            (ProducerConsumer "f" true Samples.loop_x) Samples.in_loop))
  = [mkLoop "y" (make_const_i32 0) (make_const_i32 8)].
Proof.
  refine (proj2 (visit_ProducerConsumer_restores_loop_dims
                   (H := Reference.host)
                   (print_expr (H := Reference.host) 3)
                   (print_stmt (H := Reference.host) 3)
                   "f" true Samples.loop_x Samples.in_loop _
                   eq_refl eq_refl _)).
  vm_compute. reflexivity.
Defined.

(** C9, as the claim has it, fails: the diagnostic of a let is not of the
    internal tier. *)
Lemma visit_Let_not_internal :
  tier_of (fst (visit_expr (H := Reference.host) (fun _ => ret tt)
                  (Let_ "t" (make_const_i32 1)
                        (Variable_ Int32 "t" false false))
                  (initial "p")))
  <> Some Internal.
Proof. simpl. discriminate. Qed.

(** ** The destructor *)

Lemma string_concat_app (sep : string) (a b : list string) :
  String.concat sep (a ++ b)
  = String.concat sep a
    ++ (if nonempty a && nonempty b then sep else EmptyString)
    ++ String.concat sep b.
Proof.
  induction a as [|x a IH]; [reflexivity|].
  destruct a as [|y a].
  - destruct b as [|z b]; simpl.
    + rewrite append_nil_r. reflexivity.
    + reflexivity.
  - change (String.concat sep ((x :: y :: a) ++ b))
      with (x ++ sep ++ String.concat sep ((y :: a) ++ b)).
    rewrite IH.
    change (String.concat sep (x :: y :: a))
      with (x ++ sep ++ String.concat sep (y :: a)).
    rewrite !append_assoc. reflexivity.
Qed.

Lemma output_arguments_concat (it : list string) (count : Z) (acc : string) :
  output_arguments it count acc
  = ((count + Z.of_nat (List.length it))%Z,
     acc ++ String.concat ", " (map (fun b => "&" ++ b) it)).
Proof.
  revert count acc. induction it as [|name rest IH]; intros count acc.
  - simpl. rewrite Z.add_0_r, append_nil_r. reflexivity.
  - cbn [output_arguments]. rewrite IH. f_equal.
    + simpl List.length. lia.
    + destruct rest as [|r rest]; simpl.
      * rewrite append_nil_r. reflexivity.
      * rewrite !append_assoc. reflexivity.
Qed.

Lemma input_arguments_quiet (it : list string) (count : Z) (start : bool)
      (acc : string) :
  (0 <? count)%Z && start = false ->
  input_arguments it count start acc
  = acc ++ String.concat ", " (map (fun b => "&" ++ b) it).
Proof.
  intros Hq. revert acc. induction it as [|name rest IH]; intros acc.
  - simpl. rewrite append_nil_r. reflexivity.
  - cbn [input_arguments]. rewrite Hq. rewrite IH.
    destruct rest as [|r rest]; simpl.
    + rewrite append_nil_r. reflexivity.
    + rewrite !append_assoc. reflexivity.
Qed.

Lemma input_arguments_concat (it : list string) (count : Z) (acc : string) :
  input_arguments it count true acc
  = acc ++ (if (0 <? count)%Z && nonempty it then ", " else EmptyString)
        ++ String.concat ", " (map (fun b => "&" ++ b) it).
Proof.
  destruct (0 <? count)%Z eqn:Hc.
  - destruct it as [|name rest].
    + simpl. rewrite append_nil_r. reflexivity.
    + cbn [input_arguments nonempty andb]. rewrite Hc. cbn [andb].
      rewrite input_arguments_quiet by apply andb_false_r.
      destruct rest as [|r rest]; simpl.
      * rewrite append_nil_r, !append_assoc. reflexivity.
      * rewrite !append_assoc. reflexivity.
  - rewrite input_arguments_quiet by (rewrite Hc; reflexivity).
    reflexivity.
Qed.

Lemma bind_gets {A B} (f : CodeGen_Coli -> A) (k : A -> M B) (cg : CodeGen_Coli) :
  bind (gets f) k cg = k (f cg) cg.
Proof. reflexivity. Qed.

(** C5: the destructor appends to the stream exactly the epilogue of
    section 4.5 and nothing else: one [set_arguments] call that lists
    every output buffer and then every input buffer (the temporary
    buffers do not occur in it), then [gen_isl_ast], [gen_halide_stmt],
    [dump_halide_stmt] and [gen_halide_obj] in this order, then the
    closing brace of the function body, one indentation step to the
    left.  It always returns. *)
Theorem CodeGen_Coli_dtor_epilogue (cg : CodeGen_Coli) :
  CodeGen_Coli_dtor cg
  = (Done tt,
     with_indent
       (with_stream cg
          (stream cg ++ epilogue (func cg) (indent cg)
                                 (output_buffers cg) (input_buffers cg)))
       (indent cg - tab_size)).
Proof.
  destruct cg as [s i f sc ld outs ins tmp comps consts].
  unfold CodeGen_Coli_dtor, epilogue, bound_arguments.
  rewrite !bind_gets.
  cbn [stream indent func output_buffers input_buffers].
  rewrite output_arguments_concat, input_arguments_concat.
  rewrite map_app, string_concat_app.
  assert (Hc : (0 <? 0 + Z.of_nat (List.length outs))%Z = nonempty outs).
  { destruct outs; [reflexivity|]. simpl List.length.
    apply Z.ltb_lt. lia. }
  rewrite Hc.
  assert (Hn : forall l : list string,
             nonempty (map (fun b => "&" ++ b) l) = nonempty l).
  { intros [|? ?]; reflexivity. }
  rewrite !Hn.
  cbv [bind gets emit do_indent add_indent modify with_stream with_indent
       stream indent func scope loop_dims output_buffers input_buffers
       temporary_buffers computation_list constant_list].
  rewrite !append_assoc.
  replace (i + - tab_size)%Z with (i - tab_size)%Z by lia.
  reflexivity.
Qed.


(** ** The generator only adds *)

Lemma visible_tail_app (a b : string) : visible_tail b -> visible_tail (a ++ b).
Proof.
  intros [c [Hc Hne]]. exists c. split; [|exact Hne].
  rewrite last_visible_app, Hc. reflexivity.
Qed.

Lemma visible_tail_open (s : string) : visible_tail s -> open_tail s.
Proof. intros [c [Hc Hne]] E. rewrite Hc in E. congruence. Qed.

Lemma open_tail_app (a b : string) :
  open_tail a -> open_tail b -> open_tail (a ++ b).
Proof.
  unfold open_tail. intros Ha Hb. rewrite last_visible_app.
  destruct (last_visible b); assumption.
Qed.

Lemma open_tail_spaces (n : nat) : open_tail (replicate n " ").
Proof.
  assert (E : last_visible (replicate n " ") = None
              \/ last_visible (replicate n " ") = Some " "%char).
  { induction n as [|n [IH|IH]]; simpl; rewrite ?IH; auto. }
  unfold open_tail. destruct E as [-> | ->]; discriminate.
Qed.

Lemma closes_function_body_tail (out : string) :
  closes_function_body out -> ~ open_tail out.
Proof.
  intros [before ->] Ho. apply Ho.
  rewrite last_visible_app. reflexivity.
Qed.

Ltac visible :=
  first [ solve [ eexists; split; [ vm_compute; reflexivity | discriminate ] ]
        | match goal with
          | |- visible_tail (_ ++ _) => apply visible_tail_app; visible
          end ].

Ltac open_tail :=
  first [ solve [ unfold open_tail; vm_compute; discriminate ]
        | apply open_tail_spaces
        | apply visible_tail_open; visible ].

Lemma set_mem_insert_mono (x y : string) (s : StrSet) :
  set_mem x s = true -> set_mem x (set_insert y s) = true.
Proof.
  unfold set_mem. induction s as [|z s IH]; simpl; [discriminate|].
  intros Hx. destruct (String.compare y z); simpl.
  - exact Hx.
  - apply orb_true_iff. right. exact Hx.
  - apply orb_true_iff in Hx as [Hx|Hx]; apply orb_true_iff; auto.
Qed.

Lemma set_mem_insert_same (x : string) (s : StrSet) :
  set_mem x (set_insert x s) = true.
Proof.
  unfold set_mem. induction s as [|z s IH]; simpl.
  - rewrite String.eqb_refl. reflexivity.
  - destruct (String.compare x z) eqn:E; simpl.
    + apply String.compare_eq_iff in E. subst z.
      rewrite String.eqb_refl. reflexivity.
    + rewrite String.eqb_refl. reflexivity.
    + rewrite IH. apply orb_true_r.
Qed.

Lemma grows_refl (cg : CodeGen_Coli) : grows cg cg.
Proof.
  split; [|auto]. exists EmptyString. split.
  - symmetry. apply append_nil_r.
  - discriminate.
Qed.

Lemma grows_trans (a b c : CodeGen_Coli) : grows a b -> grows b c -> grows a c.
Proof.
  intros [[w1 [E1 O1]] M1] [[w2 [E2 O2]] M2]. split; [|auto].
  exists (w1 ++ w2). split.
  - rewrite E2, E1. apply append_assoc.
  - apply open_tail_app; assumption.
Qed.

(** A change of the state that touches neither the stream nor the registry
    of computations. *)
Lemma grows_same (cg cg' : CodeGen_Coli) :
  stream cg' = stream cg -> computation_list cg' = computation_list cg ->
  grows cg cg'.
Proof.
  intros Es Ec. split.
  - exists EmptyString. split; [|discriminate].
    rewrite Es. symmetry. apply append_nil_r.
  - intros x. rewrite Ec. auto.
Qed.

Section Growth.

Context {H : Host}.

Lemma Grows_ret {A} (a : A) : Grows (ret a).
Proof. intros cg. apply grows_refl. Qed.

Lemma Grows_bind {A B} (m : M A) (k : A -> M B) :
  Grows m -> (forall a, Grows (k a)) -> Grows (bind m k).
Proof.
  intros Hm Hk cg. unfold bind.
  specialize (Hm cg). destruct (m cg) as [[a|t msg|h] cg']; simpl in *.
  - eapply grows_trans; [exact Hm|apply Hk].
  - exact Hm.
  - exact Hm.
Qed.

Lemma Grows_gets {A} (f : CodeGen_Coli -> A) : Grows (gets f).
Proof. intros cg. apply grows_refl. Qed.

Lemma Grows_user_error {A} (msg : string) : Grows (@user_error A msg).
Proof. intros cg. apply grows_refl. Qed.

Lemma Grows_internal_error {A} (msg : string) : Grows (@internal_error A msg).
Proof. intros cg. apply grows_refl. Qed.

Lemma Grows_stuck {A} (h : Halt) : Grows (@stuck A h).
Proof. intros cg. apply grows_refl. Qed.

Lemma Grows_user_assert (c : bool) (msg : string) : Grows (user_assert c msg).
Proof. destruct c; intros cg; apply grows_refl. Qed.

Lemma Grows_internal_assert (c : bool) (msg : string) :
  Grows (internal_assert c msg).
Proof. destruct c; intros cg; apply grows_refl. Qed.

Lemma Grows_emit (w : string) : open_tail w -> Grows (emit w).
Proof.
  intros Hw cg. split; [|auto]. exists w. split; [reflexivity|exact Hw].
Qed.

Lemma Grows_do_indent : Grows do_indent.
Proof.
  intros cg. split; [|auto].
  exists (replicate (Z.to_nat (indent cg)) " ").
  split; [reflexivity|apply open_tail_spaces].
Qed.

Lemma Grows_add_indent (d : Z) : Grows (add_indent d).
Proof. intros cg. apply grows_same; reflexivity. Qed.

Lemma Grows_push_loop_dim (name : string) (mn ext : Expr) :
  Grows (push_loop_dim name mn ext).
Proof. intros cg. apply grows_same; reflexivity. Qed.

Lemma Grows_pop_loop_dim : Grows pop_loop_dim.
Proof. intros cg. apply grows_same; reflexivity. Qed.

Lemma Grows_set_loop_dims (dims : list Loop) :
  Grows (modify (fun cg => with_loop_dims cg dims)).
Proof. intros cg. apply grows_same; reflexivity. Qed.

Lemma Grows_scope_push (name : string) (value : Expr) :
  Grows (scope_push name value).
Proof. intros cg. apply grows_same; reflexivity. Qed.

Lemma Grows_scope_get (name : string) : Grows (scope_get name).
Proof.
  intros cg. unfold scope_get, bind, gets. simpl.
  destruct (Scope.get name (scope cg)); apply grows_refl.
Qed.

Lemma Grows_scope_pop (name : string) : Grows (scope_pop name).
Proof.
  intros cg. unfold scope_pop, bind, gets. simpl.
  destruct (Scope.pop name (scope cg)).
  - apply grows_same; reflexivity.
  - apply grows_refl.
Qed.

Lemma Grows_insert_output_buffer (name : string) :
  Grows (insert_output_buffer name).
Proof. intros cg. apply grows_same; reflexivity. Qed.

Lemma Grows_insert_input_buffer (name : string) :
  Grows (insert_input_buffer name).
Proof. intros cg. apply grows_same; reflexivity. Qed.

Lemma Grows_insert_temporary_buffer (name : string) :
  Grows (insert_temporary_buffer name).
Proof. intros cg. apply grows_same; reflexivity. Qed.

Lemma Grows_insert_constant (name : string) : Grows (insert_constant name).
Proof. intros cg. apply grows_same; reflexivity. Qed.

Lemma Grows_insert_computation (name : string) :
  Grows (insert_computation name).
Proof.
  intros cg. split.
  - exists EmptyString. split; [|discriminate].
    symmetry. apply append_nil_r.
  - intros x. apply set_mem_insert_mono.
Qed.

Lemma Grows_type_str (type : Type_) : Grows (halide_type_to_coli_type_str type).
Proof.
  unfold halide_type_to_coli_type_str.
  repeat match goal with
         | |- Grows (if ?c then _ else _) => destruct c
         end;
    first [apply Grows_ret | apply Grows_user_error].
Qed.

End Growth.

Create HintDb grows.

#[local] Hint Resolve Grows_ret Grows_gets Grows_user_error
  Grows_internal_error Grows_stuck Grows_user_assert Grows_internal_assert
  Grows_do_indent Grows_add_indent Grows_push_loop_dim Grows_pop_loop_dim
  Grows_set_loop_dims Grows_scope_push Grows_scope_get Grows_scope_pop
  Grows_insert_output_buffer Grows_insert_input_buffer
  Grows_insert_temporary_buffer Grows_insert_constant
  Grows_insert_computation Grows_type_str : grows.

(** One step of a proof that a method only adds: split a sequence, a
    conditional or a match, close a primitive, or check the tail of an
    emitted text. *)
Ltac grows_step :=
  cbv zeta;
  match goal with
  | |- Grows (bind _ _) => apply Grows_bind; [|intros ?]
  | |- Grows (emit _) => apply Grows_emit; open_tail
  | |- Grows (if ?c then _ else _) => destruct c
  | |- Grows (match ?x with _ => _ end) => destruct x
  | |- Grows _ => solve [auto with grows]
  end.

Ltac grows := repeat grows_step.

Section Traversal.

Context {H : Host}.

Lemma Grows_print_separated (print : Expr -> M unit) (v : list Expr) :
  (forall e, Grows (print e)) -> Grows (print_separated print v).
Proof.
  intros Hp. induction v as [|x rest IH]; simpl; grows.
Qed.

Lemma Grows_visit_expr (print : Expr -> M unit) (e : Expr) :
  (forall e, Grows (print e)) -> Grows (visit_expr print e).
Proof.
  intros Hp.
  pose proof (Grows_print_separated print) as Hs.
  destruct e; simpl;
    unfold visit_IntImm, visit_UIntImm, visit_FloatImm, visit_Variable,
      visit_Binary, visit_infix, visit_Select, visit_Call, visit_Let;
    grows.
Qed.

Lemma Grows_print_expr (fuel : nat) (e : Expr) : Grows (print_expr fuel e).
Proof.
  revert e. induction fuel as [|k IH]; intros e; simpl.
  - apply Grows_stuck.
  - apply Grows_visit_expr. exact IH.
Qed.

End Traversal.

Section StatementTraversal.

Context {H : Host}.

Lemma Grows_define_constant (print : Expr -> M unit) (name : string)
      (val : Expr) :
  (forall e, Grows (print e)) -> Grows (define_constant print name val).
Proof. intros Hp. unfold define_constant. grows. Qed.

Lemma Grows_visit_stmt (print_e : Expr -> M unit) (print : Stmt -> M unit)
      (s : Stmt) :
  (forall e, Grows (print_e e)) -> (forall s, Grows (print s)) ->
  Grows (visit_stmt print_e print s).
Proof.
  intros Hpe Hp.
  pose proof (Grows_print_separated print_e) as Hs.
  pose proof (fun name val => Grows_define_constant print_e name val Hpe) as Hd.
  destruct s; simpl;
    unfold visit_LetStmt, visit_ProducerConsumer, visit_For, visit_Provide,
      visit_Realize, visit_Block;
    grows.
Qed.

Lemma Grows_print_stmt (fuel : nat) (s : Stmt) : Grows (print_stmt fuel s).
Proof.
  revert s. induction fuel as [|k IH]; intros s; simpl.
  - apply Grows_stuck.
  - apply Grows_visit_stmt; [apply Grows_print_expr|exact IH].
Qed.

Lemma Grows_output_sizes (fname : string) (buffer_extents : list Z) (i : nat) :
  Grows (output_sizes fname i buffer_extents).
Proof.
  revert i. induction buffer_extents as [|e rest IH]; intros i; simpl; grows.
Qed.

Lemma Grows_allocate_outputs (outputs : list Function)
      (extents : list (list Z)) (types : list Type_) :
  Grows (allocate_outputs outputs extents types).
Proof.
  pose proof Grows_output_sizes as Hs.
  revert extents types.
  induction outputs as [|f outputs IH]; intros [|e extents] [|t types];
    simpl; unfold allocate_output; grows.
Qed.

Lemma Grows_input_sizes (buffer_extents : list Z) (i : nat) :
  Grows (input_sizes i buffer_extents).
Proof.
  revert i. induction buffer_extents as [|e rest IH]; intros i; simpl; grows.
Qed.

Lemma Grows_pop_loop_dims (count : nat) : Grows (pop_loop_dims count).
Proof. induction count; simpl; grows. Qed.

Lemma Grows_bind_inputs (inputs : list string) (extents : list (list Z))
      (types : list Type_) :
  Grows (bind_inputs inputs extents types).
Proof.
  pose proof Grows_input_sizes as Hs.
  pose proof Grows_pop_loop_dims as Hq.
  revert extents types.
  induction inputs as [|n inputs IH]; intros [|e extents] [|t types];
    simpl; unfold bind_input; grows.
Qed.

Lemma Grows_ctor (b : Buffers) : Grows (CodeGen_Coli_ctor b).
Proof.
  pose proof Grows_allocate_outputs as Ho.
  pose proof Grows_bind_inputs as Hi.
  unfold CodeGen_Coli_ctor. grows.
Qed.

End StatementTraversal.

(** ** Fatal diagnostics *)

Lemma CodeGen_Coli_dtor_returns {H : Host} (cg : CodeGen_Coli) :
  fst (CodeGen_Coli_dtor cg) = Done tt.
Proof.
  unfold CodeGen_Coli_dtor. rewrite !bind_gets.
  destruct (output_arguments (output_buffers cg) 0 "{"). reflexivity.
Qed.

(** A run of [print_to_coli] that does not return ended in the constructor
    or in the traversal. *)
Lemma print_to_coli_fatal {H : Host} (fuel : nat) (s : Stmt)
      (pipeline_name : string) (b : Buffers) (tier : Tier) (msg : string)
      (cg : CodeGen_Coli) :
  print_to_coli fuel s pipeline_name b = (Fatal tier msg, cg) ->
  (CodeGen_Coli_ctor b ;; print_stmt fuel (normalize_stmt s))%cg
    (initial pipeline_name)
  = (Fatal tier msg, cg).
Proof.
  unfold print_to_coli, bind.
  destruct (CodeGen_Coli_ctor b (initial pipeline_name)) as [[[]|t m|h] cg1];
    try (intros E; exact E).
  destruct (print_stmt fuel (normalize_stmt s) cg1) as [[[]|t m|h] cg2];
    try (intros E; exact E).
  intros E. pose proof (CodeGen_Coli_dtor_returns cg2) as D.
  rewrite E in D. discriminate D.
Qed.

(** C2: when [print_to_coli] ends with a fatal diagnostic of either tier,
    the run ended in the constructor or in the traversal, so the
    destructor, which alone finalizes the stream, never ran, and the text
    on the stream at the abort does not end with the closing of the
    function body: it is not a finalized program.  A string literal that
    reaches the visitor is such a fatal diagnostic, of the user tier, and
    writes nothing. *)
Theorem abort_before_finalization {H : Host} (fuel : nat) (s : Stmt)
        (pipeline_name : string) (b : Buffers) (tier : Tier) (msg : string)
        (cg : CodeGen_Coli) :
  print_to_coli fuel s pipeline_name b = (Fatal tier msg, cg) ->
  (CodeGen_Coli_ctor b ;; print_stmt fuel (normalize_stmt s))%cg
    (initial pipeline_name)
  = (Fatal tier msg, cg)
  /\ ~ closes_function_body (stream cg)
  /\ (forall print value cg0,
         visit_expr print (StringImm value) cg0
         = (Fatal User
              ("Conversion of StringImm to COLi is not supported." ++ nl),
            cg0)).
Proof.
  intros E. apply print_to_coli_fatal in E.
  split; [exact E|]. split; [|reflexivity].
  intros Hc. apply closes_function_body_tail in Hc. apply Hc.
  assert (G : Grows (CodeGen_Coli_ctor b ;; print_stmt fuel (normalize_stmt s))%cg).
  { apply Grows_bind; [apply Grows_ctor|intros ?; apply Grows_print_stmt]. }
  specialize (G (initial pipeline_name)). rewrite E in G.
  destruct G as [[w [Ew Ow]] _]. simpl in Ew. rewrite Ew. exact Ow.
Qed.

(** A store of a string literal into the single output [f]: the run ends
    in the traversal with a user error, after the prologue and the head
    of the computation were written. *)
Lemma abort_before_finalization_witness :
  tier_of (fst (print_to_coli (H := Reference.host) 4 Samples.string_store "p"
                              Samples.one_output))
  = Some User
  /\ ~ closes_function_body
       (stream (snd (print_to_coli (H := Reference.host) 4 Samples.string_store
                                   "p" Samples.one_output))).
Proof.
  split; [vm_compute; reflexivity|].
  eapply (fun t m cg E =>
            proj1 (proj2 (abort_before_finalization
                            (H := Reference.host) 4 Samples.string_store "p"
                            Samples.one_output t m cg E))).
  vm_compute. reflexivity.
Defined.

(** ** Duplicate computations *)

Section Provide.

Context {H : Host}.

Lemma visit_Provide_registered (print_e : Expr -> M unit) (name : string)
      (values args : list Expr) (cg : CodeGen_Coli) :
  set_mem name (computation_list cg) = true ->
  visit_Provide print_e name values args cg
  = (Fatal Internal
       ("Duplicate computation is not currently supported." ++ nl), cg).
Proof.
  intros Hm. unfold visit_Provide. rewrite bind_gets.
  unfold bind, internal_assert. rewrite Hm. reflexivity.
Qed.

(** What a run that returns went through. *)
Lemma bind_Done {A B} (m : M A) (k : A -> M B) (cg cg2 : CodeGen_Coli) (b : B) :
  bind m k cg = (Done b, cg2) ->
  exists a cg1, m cg = (Done a, cg1) /\ k a cg1 = (Done b, cg2).
Proof.
  unfold bind. destruct (m cg) as [[a|t msg|h] cg1]; intros E;
    try discriminate E.
  exists a, cg1. split; [reflexivity|exact E].
Qed.

Lemma visit_Provide_registers (print_e : Expr -> M unit) (name : string)
      (values args : list Expr) (cg cg1 : CodeGen_Coli) :
  visit_Provide print_e name values args cg = (Done tt, cg1) ->
  set_mem name (computation_list cg1) = true.
Proof.
  unfold visit_Provide. intros E.
  repeat match type of E with
         | bind _ _ _ = (Done _, _) =>
             apply bind_Done in E as [? [? [_ E]]]
         | (match ?v with _ => _ end) _ = _ => destruct v; try discriminate E
         | (if ?c then _ else _) _ = _ => destruct c
         end.
  all: try discriminate E.
  all: unfold insert_computation, modify in E; inversion E; subst; simpl;
    apply set_mem_insert_same.
Qed.

(** C3, as the code has it: once a store to [name] was translated, and
    in whatever later state of the generator whose registry of
    computations still holds what it held then, the visit of another
    store to [name] ends the translation, writes nothing, and its
    diagnostic "Duplicate computation is not currently supported." is
    raised by [internal_assert]: it is of the internal tier. *)
Theorem visit_Provide_duplicate_internal
        (print_e print_e' : Expr -> M unit) (print print' : Stmt -> M unit)
        (name : string) (values args values' args' : list Expr)
        (cg cg1 cg2 : CodeGen_Coli) :
  visit_stmt print_e print (Provide name values args) cg = (Done tt, cg1) ->
  (forall x, set_mem x (computation_list cg1) = true ->
             set_mem x (computation_list cg2) = true) ->
  visit_stmt print_e' print' (Provide name values' args') cg2
  = (Fatal Internal
       ("Duplicate computation is not currently supported." ++ nl), cg2).
Proof.
  simpl. intros E Hmono.
  apply visit_Provide_registered, Hmono.
  eapply visit_Provide_registers. exact E.
Qed.


End Provide.

(** A store to [f], and a second store to [f] right after it. *)
Lemma visit_Provide_duplicate_internal_witness :
  fst (visit_stmt (H := Reference.host)
         (print_expr (H := Reference.host) 3) (print_stmt (H := Reference.host) 3)
         Samples.store_one
         (snd (visit_stmt (H := Reference.host)
                 (print_expr (H := Reference.host) 3)
                 (print_stmt (H := Reference.host) 3)
                 Samples.store_one Samples.declared)))
  = Fatal Internal ("Duplicate computation is not currently supported." ++ nl).
Proof.
  refine (f_equal fst
            (visit_Provide_duplicate_internal
               (H := Reference.host)
               (print_expr (H := Reference.host) 3)
               (print_expr (H := Reference.host) 3)
               (print_stmt (H := Reference.host) 3)
               (print_stmt (H := Reference.host) 3)
               "f" [make_const_i32 1] [Samples.var "x"]
               [make_const_i32 1] [Samples.var "x"]
               Samples.declared
               (snd (visit_stmt (H := Reference.host)
                       (print_expr (H := Reference.host) 3)
                       (print_stmt (H := Reference.host) 3)
                       Samples.store_one Samples.declared))
               (snd (visit_stmt (H := Reference.host)
                       (print_expr (H := Reference.host) 3)
                       (print_stmt (H := Reference.host) 3)
                       Samples.store_one Samples.declared))
               _ _)).
  - vm_compute. reflexivity.
  - intros x Hx. exact Hx.
Defined.

(** C3, as the claim has it, fails: two stores to the output [f] in
    sequence end the translation with a diagnostic that is not of the
    user tier. *)
Lemma two_stores_not_user_error :
  tier_of (fst (print_to_coli (H := Reference.host) 4 Samples.two_stores "p"
                              Samples.one_output))
  <> Some User.
Proof. vm_compute. discriminate. Qed.

(** ** The replacements of a loop *)

Lemma map_find_emplace_same {T} (k : string) (v : T) (m : StrMap T) :
  map_find k (map_emplace k v m) <> None.
Proof.
  induction m as [|[k' v'] m IH]; simpl.
  - rewrite String.eqb_refl. discriminate.
  - destruct (String.compare k k') eqn:E; simpl.
    + apply String.compare_eq_iff in E. subst k'.
      rewrite String.eqb_refl. discriminate.
    + rewrite String.eqb_refl. discriminate.
    + destruct (String.eqb k k'); [discriminate|exact IH].
Qed.

Lemma map_find_emplace_mono {T} (k k2 : string) (v2 : T) (m : StrMap T) :
  map_find k m <> None -> map_find k (map_emplace k2 v2 m) <> None.
Proof.
  induction m as [|[k' v'] m IH]; simpl; [congruence|].
  intros Hk. destruct (String.compare k2 k'); simpl.
  - exact Hk.
  - destruct (String.eqb k k2); [discriminate|exact Hk].
  - destruct (String.eqb k k'); [discriminate|auto].
Qed.

Lemma emplace_all_finds {T} (l : list (string * T)) (acc : StrMap T) (k : string) :
  (exists v, In (k, v) l) \/ map_find k acc <> None ->
  map_find k
    (fold_left (fun m '(name, value) => map_emplace name value m) l acc)
  <> None.
Proof.
  revert acc. induction l as [|[n v] l IH]; intros acc; simpl.
  - intros [[? []]|Hk]. exact Hk.
  - intros [[v0 [E|Hin]]|Hk]; apply IH.
    + right. inversion E; subst. apply map_find_emplace_same.
    + left. exists v0. exact Hin.
    + right. apply map_find_emplace_mono. exact Hk.
Qed.

(** Whenever the min and the extent of a loop are two different variables,
    the test of the loop at lines 652-656 holds for every name, and every
    binding of the scope lands in [replacements], those of the two bounds
    included. *)
Lemma for_replacements_distinct (sc : Scope.t) (min_name extent_name : string)
      (k : string) (v : Expr) :
  min_name <> extent_name ->
  In (k, v) (Scope.bindings sc) ->
  map_find k (for_replacements sc min_name extent_name) <> None.
Proof.
  intros Hne Hin. unfold for_replacements.
  assert (E : forall (l : list (string * Expr)) (acc : StrMap Expr),
             fold_left
               (fun replacements '(name, value) =>
                  if negb (String.eqb name min_name)
                     || negb (String.eqb name extent_name)
                  then map_emplace name value replacements
                  else replacements) l acc
             = fold_left (fun m '(name, value) => map_emplace name value m)
                         l acc).
  { induction l as [|[n x] l IH]; intros acc; simpl; [reflexivity|].
    rewrite IH.
    destruct (String.eqb n min_name) eqn:E1,
             (String.eqb n extent_name) eqn:E2; simpl; try reflexivity.
    apply String.eqb_eq in E1, E2. contradiction Hne. congruence. }
  rewrite E. apply emplace_all_finds. left. exists v. exact Hin.
Qed.

Lemma scope_get_bound {B} (name : string) (value : Expr) (k : Expr -> M B)
      (cg : CodeGen_Coli) :
  Scope.get name (scope cg) = Some value ->
  bind (scope_get name) k cg = k value cg.
Proof.
  intros Hg. unfold scope_get. unfold bind at 1. rewrite bind_gets, Hg.
  reflexivity.
Qed.

(** The visit of a loop whose bounds are the variables [min_name] and
    [extent_name], bound in the scope to [min_val] and [extent_val]: each
    value goes through [substitute] twice, with the same replacements, and
    the two results are defined as constants before the body is printed. *)
Lemma visit_For_substitutes_twice {H : Host}
      (print_e : Expr -> M unit) (print : Stmt -> M unit)
      (name min_name extent_name : string) (t1 t2 : Type_) (p1 i1 p2 i2 : bool)
      (body : Stmt) (min_val extent_val : Expr) (cg : CodeGen_Coli) :
  Scope.get min_name (scope cg) = Some min_val ->
  Scope.get extent_name (scope cg) = Some extent_val ->
  let replacements := for_replacements (scope cg) min_name extent_name in
  visit_stmt print_e print
    (For name (Variable_ t1 min_name p1 i1) (Variable_ t2 extent_name p2 i2) body)
    cg
  = (push_loop_dim name (Variable_ t1 min_name p1 i1)
                   (Variable_ t2 extent_name p2 i2) ;;
     do_indent ;;
     emit ("// Define loop bounds for dimension " ++ dq ++ name ++ dq
           ++ "." ++ nl) ;;
     define_constant print_e min_name
       (substitute replacements (substitute replacements min_val)) ;;
     define_constant print_e extent_name
       (substitute replacements (substitute replacements extent_val)) ;;
     emit nl ;;
     print body ;;
     pop_loop_dim)%cg cg.
Proof.
  intros Hmin Hext replacements.
  assert (Hs : forall k : unit -> M unit,
             bind (push_loop_dim name (Variable_ t1 min_name p1 i1)
                                 (Variable_ t2 extent_name p2 i2)) k cg
             = k tt (with_loop_dims cg
                       (loop_dims cg
                        ++ [mkLoop name (Variable_ t1 min_name p1 i1)
                                   (Variable_ t2 extent_name p2 i2)])%list))
    by reflexivity.
  unfold visit_stmt, visit_For. cbn [as_Variable].
  rewrite !Hs.
  rewrite (scope_get_bound min_name min_val) by exact Hmin.
  rewrite (scope_get_bound extent_name extent_val) by exact Hext.
  rewrite bind_gets. reflexivity.
Qed.

(** C1, on a loop over [x] from [m] of extent [e], in the scope of
    [n = 7], [m = 0] and [e = m + 4]: the replacements hold the bindings
    of [m] and of [e] themselves, next to that of [n], and the extent is
    emitted with [m] replaced by its value.  Both bounds go through
    [substitute] twice. *)
Theorem for_replacements_hold_own_bounds :
  map fst (for_replacements Samples.bounds_scope "m" "e") = ["e"; "m"; "n"]
  /\ map_find "m" (for_replacements Samples.bounds_scope "m" "e")
     = Some (make_const_i32 0)
  /\ stream
       (snd (visit_stmt (H := Reference.host)
               (print_expr (H := Reference.host) 3)
               (print_stmt (H := Reference.host) 3)
               Samples.loop_x Samples.in_loop))
     = "// Define loop bounds for dimension " ++ dq ++ "x" ++ dq ++ "." ++ nl
       ++ "coli::constant m(" ++ dq ++ "m" ++ dq
       ++ ", coli::expr((int32_t)0), coli::p_int32, true, NULL, 0, &p);" ++ nl
       ++ "coli::constant e(" ++ dq ++ "e" ++ dq
       ++ ", (coli::expr((int32_t)0) + coli::expr((int32_t)4)), "
       ++ "coli::p_int32, true, NULL, 0, &p);" ++ nl ++ nl.
Proof. repeat split; vm_compute; reflexivity. Qed.

(** * Further properties of the generator *)

(** ** The sanitizer *)

Lemma print_name_loop_app (a b : string) :
  print_name_loop (a ++ b) = print_name_loop a ++ print_name_loop b.
Proof.
  induction a as [|c a IH]; simpl; [reflexivity|].
  rewrite IH, append_assoc. reflexivity.
Qed.

Lemma front_app_nonempty (c : ascii) (a b : string) :
  front (String c a ++ b) = c.
Proof. reflexivity. Qed.

(** X1: a sanitized name is made of letters, digits and underscores only, and
    it never begins with a letter: a name that began with one has got an
    underscore in front. *)
Theorem print_name_valid_identifier (s : string) :
  all_clean (print_name s) = true
  /\ isalpha (front (print_name s)) = false
  /\ (isalpha (front s) = true -> front (print_name s) = "_"%char).
Proof.
  split; [apply print_name_all_clean|].
  split; [apply front_print_name|].
  intros Ha. unfold print_name. rewrite Ha. reflexivity.
Qed.

Lemma print_name_valid_identifier_witness :
  front (print_name "while") = "_"%char.
Proof.
  exact (proj2 (proj2 (print_name_valid_identifier "while")) eq_refl).
Defined.

(** X2: the sanitizer is not injective: a '.' and a '_' at the same place give
    the same name, and so do a '$' and two underscores. *)
Theorem print_name_collisions (a b : string) :
  print_name (a ++ "." ++ b) = print_name (a ++ "_" ++ b)
  /\ print_name (a ++ "$" ++ b) = print_name (a ++ "__" ++ b).
Proof.
  unfold print_name. rewrite !print_name_loop_app.
  destruct a as [|c a]; split; reflexivity.
Qed.

Lemma string_length_app (a b : string) :
  String.length (a ++ b) = (String.length a + String.length b)%nat.
Proof. induction a as [|c a IH]; simpl; [reflexivity|]. rewrite IH. reflexivity. Qed.

Lemma print_name_char_length (c : ascii) :
  (1 <= String.length (print_name_char c) <= 3)%nat.
Proof.
  unfold print_name_char.
  destruct (Ascii.eqb c "."); [simpl; lia|].
  destruct (Ascii.eqb c "$"); [simpl; lia|].
  destruct (negb (Ascii.eqb c "_") && negb (isalnum c)); simpl; lia.
Qed.

Lemma print_name_loop_length (s : string) :
  (String.length s <= String.length (print_name_loop s) <= 3 * String.length s)%nat.
Proof.
  induction s as [|c s IH]; simpl; [lia|].
  rewrite string_length_app. pose proof (print_name_char_length c). lia.
Qed.

(** X3: sanitizing never shortens a name, and makes it at most three times as
    long, plus the leading underscore. *)
Theorem print_name_length (s : string) :
  (String.length s <= String.length (print_name s) <= 3 * String.length s + 1)%nat.
Proof.
  unfold print_name. rewrite string_length_app.
  pose proof (print_name_loop_length s).
  destruct (isalpha (front s)); simpl; lia.
Qed.

(** ** The pre-pass *)

Lemma print_name_fixed (s : string) : print_name (print_name s) = print_name s.
Proof.
  unfold print_name at 1. rewrite front_print_name.
  rewrite (print_name_loop_fixes_clean _ (print_name_all_clean s)).
  reflexivity.
Qed.

Lemma normalize_expr_fixed :
  forall e : Expr, normalize_expr (normalize_expr e) = normalize_expr e.
Proof.
  fix normalize_expr_fixed 1. intros e.
  destruct e; simpl; rewrite ?print_name_fixed, ?normalize_expr_fixed;
    try reflexivity.
  f_equal. rewrite map_map.
  induction args as [|a args IH]; simpl; [reflexivity|].
  rewrite normalize_expr_fixed, IH. reflexivity.
Qed.

Lemma map_normalize_expr_fixed (l : list Expr) :
  map normalize_expr (map normalize_expr l) = map normalize_expr l.
Proof.
  rewrite map_map. apply map_ext. intros e. apply normalize_expr_fixed.
Qed.

Lemma map_normalize_range_fixed (l : list Range) :
  map normalize_range (map normalize_range l) = map normalize_range l.
Proof.
  rewrite map_map. apply map_ext. intros [mn ext]. unfold normalize_range.
  simpl. rewrite !normalize_expr_fixed. reflexivity.
Qed.

Lemma normalize_stmt_fixed :
  forall s : Stmt, normalize_stmt (normalize_stmt s) = normalize_stmt s.
Proof.
  fix normalize_stmt_fixed 1. intros s.
  destruct s as [| | | | | | | | | first [rest|] | c t [e|] |]; simpl;
    rewrite ?print_name_fixed, ?normalize_expr_fixed,
      ?map_normalize_expr_fixed, ?map_normalize_range_fixed,
      ?normalize_stmt_fixed;
    reflexivity.
Qed.

(** X4: [NormalizeVariableName] is idempotent: a second pass leaves a
    normalized statement, or expression, as it is, since the names of its
    loops, lets and variables are sanitized already. *)
Theorem normalize_stmt_idempotent (s : Stmt) (e : Expr) :
  normalize_stmt (normalize_stmt s) = normalize_stmt s
  /\ normalize_expr (normalize_expr e) = normalize_expr e.
Proof. split; [apply normalize_stmt_fixed|apply normalize_expr_fixed]. Qed.

(** ** Lists rendered with separators *)

(** X5: the loops of [to_string] and [get_loop_bounds], which test for the
    last index, are joins: the elements with the separator between every
    two of them, in brackets, so that no separator leads or trails; an
    empty stack of loops renders as "()". *)
Theorem to_string_join {H : Host} {T} (show : T -> string) (v : list T)
        (dims : list Loop) :
  to_string show v = "[" ++ String.concat ", " (map show v) ++ "]"
  /\ get_loop_bounds dims
     = "(" ++ String.concat ") and (" (map Loop_to_string dims) ++ ")"
  /\ get_loop_bounds [] = "()".
Proof.
  unfold to_string, get_loop_bounds. rewrite !separated_concat.
  repeat split; reflexivity.
Qed.

(** ** The type table *)

(** X6: [halide_type_to_coli_type_str] never touches the state; it returns a
    name, which begins with "coli::p_", exactly for the integers of any
    width, the floats of 32 and 64 bits and the booleans, and is a user
    error for every other type.  An integer of a width other than 8, 16
    or 32 bits gets the name of the 64-bit one. *)
Theorem halide_type_to_coli_type_str_supported (t : Type_) (cg : CodeGen_Coli) :
  snd (halide_type_to_coli_type_str t cg) = cg
  /\ (if supported t
      then exists name, fst (halide_type_to_coli_type_str t cg) = Done name
                        /\ String.prefix "coli::p_" name = true
      else tier_of (fst (halide_type_to_coli_type_str t cg)) = Some User)
  /\ (is_int t = true ->
      (bits t =? 8)%Z || (bits t =? 16)%Z || (bits t =? 32)%Z = false ->
      fst (halide_type_to_coli_type_str t cg) = Done "coli::p_int64").
Proof.
  unfold halide_type_to_coli_type_str, supported, is_uint, is_int, is_float,
    is_bool.
  destruct t as [c b l]; cbn [code bits].
  destruct c, (b =? 8)%Z, (b =? 16)%Z, (b =? 32)%Z, (b =? 64)%Z;
    cbn; repeat split; try discriminate; try (eexists; split; reflexivity);
    reflexivity.
Qed.

(** A signed integer of 24 bits is rendered as a 64-bit one. *)
Lemma halide_type_to_coli_type_str_supported_witness :
  fst (halide_type_to_coli_type_str (mkType Int 24 1) (initial "p"))
  = Done "coli::p_int64".
Proof.
  exact (proj2 (proj2 (halide_type_to_coli_type_str_supported
                         (mkType Int 24 1) (initial "p")))
               eq_refl eq_refl).
Defined.

(** ** What a method keeps *)

Section Judgements.

Context {A B : Type}.
Variable P : CodeGen_Coli -> Prop.

Lemma Inv_ret (a : A) : Inv P (ret a).
Proof. intros cg Hc. exact Hc. Qed.

Lemma Inv_bind (m : M A) (k : A -> M B) :
  Inv P m -> (forall a, Inv P (k a)) -> Inv P (bind m k).
Proof.
  intros Hm Hk cg Hc. unfold bind.
  specialize (Hm cg Hc). destruct (m cg) as [[a|t msg|h] cg']; simpl in *.
  - apply Hk. exact Hm.
  - exact Hm.
  - exact Hm.
Qed.

Lemma Inv_gets (f : CodeGen_Coli -> A) : Inv P (gets f).
Proof. intros cg Hc. exact Hc. Qed.

Lemma Inv_user_error (msg : string) : Inv P (@user_error A msg).
Proof. intros cg Hc. exact Hc. Qed.

Lemma Inv_internal_error (msg : string) : Inv P (@internal_error A msg).
Proof. intros cg Hc. exact Hc. Qed.

Lemma Inv_stuck (h : Halt) : Inv P (@stuck A h).
Proof. intros cg Hc. exact Hc. Qed.

End Judgements.

Section Primitives.

Variable P : CodeGen_Coli -> Prop.

Lemma Inv_user_assert (c : bool) (msg : string) : Inv P (user_assert c msg).
Proof. destruct c; intros cg Hc; exact Hc. Qed.

Lemma Inv_internal_assert (c : bool) (msg : string) :
  Inv P (internal_assert c msg).
Proof. destruct c; intros cg Hc; exact Hc. Qed.

Lemma Inv_type_str (type : Type_) : Inv P (halide_type_to_coli_type_str type).
Proof.
  unfold halide_type_to_coli_type_str.
  repeat match goal with
         | |- Inv _ (if ?c then _ else _) => destruct c
         end;
    first [apply Inv_ret | apply Inv_user_error].
Qed.

Lemma Inv_scope_get (name : string) : Inv P (scope_get name).
Proof.
  intros cg Hc. unfold scope_get, bind, gets. simpl.
  destruct (Scope.get name (scope cg)); exact Hc.
Qed.

Lemma Inv_emit (w : string) : stable_stream P -> Inv P (emit w).
Proof. intros Hs cg Hc. apply Hs. exact Hc. Qed.

Lemma Inv_do_indent : stable_stream P -> Inv P do_indent.
Proof. intros Hs cg Hc. apply Hs. exact Hc. Qed.

Lemma Inv_add_indent (d : Z) : stable_indent P -> Inv P (add_indent d).
Proof. intros Hs cg Hc. apply Hs. exact Hc. Qed.

Lemma Inv_push_loop_dim (name : string) (mn ext : Expr) :
  stable_loop_dims P -> Inv P (push_loop_dim name mn ext).
Proof. intros Hs cg Hc. apply Hs. exact Hc. Qed.

Lemma Inv_pop_loop_dim : stable_loop_dims P -> Inv P pop_loop_dim.
Proof. intros Hs cg Hc. apply Hs. exact Hc. Qed.

Lemma Inv_set_loop_dims (dims : list Loop) :
  stable_loop_dims P -> Inv P (modify (fun cg => with_loop_dims cg dims)).
Proof. intros Hs cg Hc. apply Hs. exact Hc. Qed.

Lemma Inv_scope_push (name : string) (value : Expr) :
  stable_scope P -> Inv P (scope_push name value).
Proof. intros Hs cg Hc. apply Hs. exact Hc. Qed.

Lemma Inv_scope_pop (name : string) : stable_scope P -> Inv P (scope_pop name).
Proof.
  intros Hs cg Hc. unfold scope_pop, bind, gets. simpl.
  destruct (Scope.pop name (scope cg)); [apply Hs|]; exact Hc.
Qed.

Lemma Inv_insert_output_buffer (name : string) :
  stable_outputs P -> Inv P (insert_output_buffer name).
Proof. intros Hs cg Hc. apply Hs. exact Hc. Qed.

Lemma Inv_insert_input_buffer (name : string) :
  stable_inputs P -> Inv P (insert_input_buffer name).
Proof. intros Hs cg Hc. apply Hs. exact Hc. Qed.

Lemma Inv_insert_temporary_buffer (name : string) :
  stable_temporaries P -> Inv P (insert_temporary_buffer name).
Proof. intros Hs cg Hc. apply Hs. exact Hc. Qed.

Lemma Inv_insert_computation (name : string) :
  stable_computations P -> Inv P (insert_computation name).
Proof. intros Hs cg Hc. apply Hs. exact Hc. Qed.

Lemma Inv_insert_constant (name : string) :
  stable_constants P -> Inv P (insert_constant name).
Proof. intros Hs cg Hc. apply Hs. exact Hc. Qed.

End Primitives.

Create HintDb inv.

#[local] Hint Resolve Inv_ret Inv_gets Inv_user_error Inv_internal_error
  Inv_stuck Inv_user_assert Inv_internal_assert Inv_type_str Inv_scope_get
  Inv_emit Inv_do_indent Inv_add_indent Inv_push_loop_dim Inv_pop_loop_dim
  Inv_set_loop_dims Inv_scope_push Inv_scope_pop Inv_insert_output_buffer
  Inv_insert_input_buffer Inv_insert_temporary_buffer Inv_insert_computation
  Inv_insert_constant : inv.

(** One step of a proof that a method keeps a predicate. *)
Ltac inv_step :=
  cbv zeta;
  match goal with
  | |- Inv _ (bind _ _) => apply Inv_bind; [|intros ?]
  | |- Inv _ (if ?c then _ else _) => destruct c
  | |- Inv _ (match ?x with _ => _ end) => destruct x
  | |- Inv _ _ => solve [auto with inv]
  end.

Ltac inv := repeat inv_step.

Section KeptByExpressions.

Context {H : Host}.
Variable P : CodeGen_Coli -> Prop.
Hypothesis P_stream : stable_stream P.

Lemma Inv_print_separated (print : Expr -> M unit) (v : list Expr) :
  (forall e, Inv P (print e)) -> Inv P (print_separated print v).
Proof. intros Hp. induction v as [|x rest IH]; simpl; inv. Qed.

Lemma Inv_visit_expr (print : Expr -> M unit) (e : Expr) :
  (forall e, Inv P (print e)) -> Inv P (visit_expr print e).
Proof.
  intros Hp. pose proof (Inv_print_separated print) as Hs.
  destruct e; simpl;
    unfold visit_IntImm, visit_UIntImm, visit_FloatImm, visit_Variable,
      visit_Binary, visit_infix, visit_Select, visit_Call, visit_Let;
    inv.
Qed.

Lemma Inv_print_expr (fuel : nat) (e : Expr) : Inv P (print_expr fuel e).
Proof.
  revert e. induction fuel as [|k IH]; intros e; simpl.
  - apply Inv_stuck.
  - apply Inv_visit_expr. exact IH.
Qed.

End KeptByExpressions.

Section KeptByStatements.

Context {H : Host}.
Variable P : CodeGen_Coli -> Prop.
Hypothesis P_stream : stable_stream P.
Hypothesis P_indent : stable_indent P.
Hypothesis P_scope : stable_scope P.
Hypothesis P_loop_dims : stable_loop_dims P.
Hypothesis P_temporaries : stable_temporaries P.
Hypothesis P_computations : stable_computations P.
Hypothesis P_constants : stable_constants P.

Lemma Inv_define_constant (print : Expr -> M unit) (name : string)
      (val : Expr) :
  (forall e, Inv P (print e)) -> Inv P (define_constant print name val).
Proof. intros Hp. unfold define_constant. inv. Qed.

Lemma Inv_visit_stmt (print_e : Expr -> M unit) (print : Stmt -> M unit)
      (s : Stmt) :
  (forall e, Inv P (print_e e)) -> (forall s, Inv P (print s)) ->
  Inv P (visit_stmt print_e print s).
Proof.
  intros Hpe Hp.
  pose proof (Inv_print_separated P P_stream print_e) as Hs.
  pose proof (fun name val => Inv_define_constant print_e name val Hpe) as Hd.
  destruct s; simpl;
    unfold visit_LetStmt, visit_ProducerConsumer, visit_For, visit_Provide,
      visit_Realize, visit_Block;
    inv.
Qed.

Lemma Inv_print_stmt (fuel : nat) (s : Stmt) : Inv P (print_stmt fuel s).
Proof.
  revert s. induction fuel as [|k IH]; intros s; simpl.
  - apply Inv_stuck.
  - apply Inv_visit_stmt; [apply Inv_print_expr; exact P_stream|exact IH].
Qed.

End KeptByStatements.

(** ** What the traversal leaves alone *)

Lemma rest_of_refl (cg : CodeGen_Coli) : rest_of cg cg.
Proof. destruct cg. reflexivity. Qed.

Lemma rest_of_stable (c0 : CodeGen_Coli) : stable_stream (rest_of c0).
Proof. intros cg v Hc. exact Hc. Qed.

Lemma rest_of_with_stream (c0 cg : CodeGen_Coli) :
  rest_of c0 cg -> cg = with_stream c0 (stream cg).
Proof.
  unfold rest_of. intros E. rewrite <- E. destruct cg. reflexivity.
Qed.

(** X7: printing an expression only writes: however the print ends, also with
    a fatal diagnostic or out of fuel, the state it leaves is the state it
    started from with some text appended to the stream; scope, loop
    dimensions, indentation and the registries are untouched. *)
Theorem print_expr_only_appends {H : Host} (fuel : nat) (e : Expr)
        (cg : CodeGen_Coli) :
  exists w, snd (print_expr fuel e cg) = with_stream cg (stream cg ++ w).
Proof.
  destruct (Grows_print_expr fuel e cg) as [[w [Ew _]] _].
  exists w. rewrite <- Ew. apply rest_of_with_stream.
  apply (Inv_print_expr (rest_of cg) (rest_of_stable cg) fuel e cg).
  apply rest_of_refl.
Qed.

Lemma declared_in_refl (c0 : CodeGen_Coli) (tmp cst : string) :
  declared_in c0 tmp cst c0.
Proof. repeat split; auto. Qed.

(** The predicates of this development do not look at the members they
    are stable under, or look at a registry through membership. *)
Ltac stable :=
  let cg := fresh "cg" in
  let v := fresh "v" in
  let Hc := fresh "Hc" in
  intros cg v Hc; destruct cg;
  unfold declared_in, at_depth, in_scope, clash, has_constant,
    has_computation, has_temporary, outputs_are, inputs_are,
    computations_are, untouched in *;
  cbn [stream indent func scope loop_dims output_buffers input_buffers
       temporary_buffers computation_list constant_list
       with_stream with_indent with_scope with_loop_dims with_output_buffers
       with_input_buffers with_temporary_buffers with_computation_list
       with_constant_list] in *;
  first [assumption | intuition (auto using set_mem_insert_mono)].

(** X8: the traversal of a statement, however it ends, leaves the function
    name and the registries of output and input buffers as they are, so
    the arguments bound at the end are those of the constructor; it never
    removes a temporary buffer, a computation or a constant from its
    registry; and it only appends to the stream. *)
Theorem print_stmt_keeps_declarations {H : Host} (fuel : nat) (s : Stmt)
        (cg : CodeGen_Coli) :
  func (snd (print_stmt fuel s cg)) = func cg
  /\ output_buffers (snd (print_stmt fuel s cg)) = output_buffers cg
  /\ input_buffers (snd (print_stmt fuel s cg)) = input_buffers cg
  /\ (forall x, set_mem x (temporary_buffers cg) = true ->
                set_mem x (temporary_buffers (snd (print_stmt fuel s cg))) = true)
  /\ (forall x, set_mem x (constant_list cg) = true ->
                set_mem x (constant_list (snd (print_stmt fuel s cg))) = true)
  /\ (forall x, set_mem x (computation_list cg) = true ->
                set_mem x (computation_list (snd (print_stmt fuel s cg))) = true)
  /\ (exists w, stream (snd (print_stmt fuel s cg)) = stream cg ++ w).
Proof.
  assert (K : forall tmp cst,
             declared_in cg tmp cst (snd (print_stmt fuel s cg))).
  { intros tmp cst.
    apply (Inv_print_stmt (declared_in cg tmp cst)); try solve [stable].
    apply declared_in_refl. }
  destruct (Grows_print_stmt fuel s cg) as [[w [Ew _]] Hm].
  pose proof (K EmptyString EmptyString) as [Hf [Ho [Hi _]]].
  repeat split; try assumption.
  - intros x. apply (K x EmptyString).
  - intros x. apply (K EmptyString x).
  - exists w. exact Ew.
Qed.

(** ** What a traversal that returns restores *)

Section Triples.

Context {A B : Type}.

Lemma Triple_bind (P Q R : CodeGen_Coli -> Prop) (m : M A) (k : A -> M B) :
  Triple P m Q -> (forall a, Triple Q (k a) R) -> Triple P (bind m k) R.
Proof.
  intros Hm Hk cg b cg' Hc E. unfold bind in E.
  destruct (m cg) as [[a|t msg|h] cg1] eqn:Em; try discriminate E.
  eapply Hk; [|exact E]. eapply Hm; [exact Hc|exact Em].
Qed.

Lemma Triple_bind_gets (P R : CodeGen_Coli -> Prop) (f : CodeGen_Coli -> A)
      (k : A -> M B) :
  (forall c0, P c0 -> Triple P (k (f c0)) R) -> Triple P (bind (gets f) k) R.
Proof. intros Hk cg b cg' Hc E. eapply Hk; [exact Hc|exact Hc|exact E]. Qed.

Lemma Inv_Triple (P : CodeGen_Coli -> Prop) (m : M A) : Inv P m -> Triple P m P.
Proof.
  intros Hm cg a cg' Hc E. specialize (Hm cg Hc). rewrite E in Hm. exact Hm.
Qed.

Lemma Triple_user_error (P Q : CodeGen_Coli -> Prop) (msg : string) :
  Triple P (@user_error A msg) Q.
Proof. intros cg a cg' _ E. discriminate E. Qed.

Lemma Triple_internal_error (P Q : CodeGen_Coli -> Prop) (msg : string) :
  Triple P (@internal_error A msg) Q.
Proof. intros cg a cg' _ E. discriminate E. Qed.

Lemma Triple_stuck (P Q : CodeGen_Coli -> Prop) (h : Halt) :
  Triple P (@stuck A h) Q.
Proof. intros cg a cg' _ E. discriminate E. Qed.

End Triples.

Lemma Triple_modify (P Q : CodeGen_Coli -> Prop)
      (f : CodeGen_Coli -> CodeGen_Coli) :
  (forall cg, P cg -> Q (f cg)) -> Triple P (modify f) Q.
Proof. intros Hf cg a cg' Hc E. inversion E; subst. apply Hf. exact Hc. Qed.

Lemma Triple_ret {A} (P : CodeGen_Coli -> Prop) (a : A) : Triple P (ret a) P.
Proof. intros cg a' cg' Hc E. inversion E; subst. exact Hc. Qed.

Create HintDb triple.

#[local] Hint Resolve Inv_Triple Triple_user_error Triple_internal_error
  Triple_stuck Triple_ret : triple.

(** One step of a proof that a method that returns re-establishes the
    predicate it started from; it stops at a write that breaks it. *)
Ltac triple_step :=
  cbv zeta;
  match goal with
  | |- Triple ?P (bind (gets _) _) _ => apply Triple_bind_gets; intros ? ?
  | |- Triple ?P (bind _ _) _ =>
      apply (Triple_bind P P);
      [first [solve [auto 6 with triple inv] | solve [apply Inv_Triple; inv]]
      |intros ?]
  | |- Triple _ (if ?c then _ else _) _ => destruct c
  | |- Triple _ (match ?x with _ => _ end) _ => destruct x
  | |- Triple _ _ _ => solve [auto 6 with triple inv]
  end.

Ltac triple := repeat triple_step.

Lemma at_depth_stream (dims : list Loop) (ind : Z) :
  stable_stream (at_depth dims ind).
Proof. stable. Qed.

Lemma at_depth_scope (dims : list Loop) (ind : Z) :
  stable_scope (at_depth dims ind).
Proof. stable. Qed.

Lemma at_depth_temporaries (dims : list Loop) (ind : Z) :
  stable_temporaries (at_depth dims ind).
Proof. stable. Qed.

Lemma at_depth_computations (dims : list Loop) (ind : Z) :
  stable_computations (at_depth dims ind).
Proof. stable. Qed.

Lemma at_depth_constants (dims : list Loop) (ind : Z) :
  stable_constants (at_depth dims ind).
Proof. stable. Qed.

#[local] Hint Resolve at_depth_stream at_depth_scope at_depth_temporaries
  at_depth_computations at_depth_constants : inv.

Section Depth.

Context {H : Host}.

Lemma define_constant_at_depth (fuel : nat) (name : string) (val : Expr)
      (dims : list Loop) (ind : Z) :
  Inv (at_depth dims ind) (define_constant (print_expr fuel) name val).
Proof.
  pose proof (fun e => Inv_print_expr (at_depth dims ind)
                         (at_depth_stream dims ind) fuel e) as Hp.
  unfold define_constant. inv.
Qed.

Lemma visit_stmt_at_depth (fuel : nat) (print : Stmt -> M unit) (s : Stmt) :
  (forall s dims ind, Triple (at_depth dims ind) (print s) (at_depth dims ind)) ->
  forall dims ind,
    Triple (at_depth dims ind) (visit_stmt (print_expr fuel) print s)
           (at_depth dims ind).
Proof.
  intros Hp dims ind.
  pose proof (fun dims ind e =>
                Inv_print_expr (at_depth dims ind) (at_depth_stream dims ind)
                               fuel e) as Hpe.
  pose proof (fun dims ind =>
                Inv_print_separated (at_depth dims ind)
                  (at_depth_stream dims ind) (print_expr fuel)) as Hs.
  pose proof (fun name val dims ind =>
                define_constant_at_depth fuel name val dims ind) as Hd.
  destruct s as [n v body | c m | n p body | n mn ext body | n v i
                | n vs args | n t es c body | n | n ts bs c body
                | first rest | c t e | v]; simpl.
  - unfold visit_LetStmt. triple.
  - triple.
  - unfold visit_ProducerConsumer. triple.
    apply Triple_modify. intros cg [_ Hi].
    repeat match goal with
           | Hc : at_depth _ _ _ |- _ => destruct Hc
           end.
    split; simpl; congruence.
  - unfold visit_For.
    apply (Triple_bind _ (at_depth (dims ++ [mkLoop n mn ext])%list ind)).
    { apply Triple_modify. intros cg [Hd0 Hi]. split; [|exact Hi].
      simpl. rewrite Hd0. reflexivity. }
    intros _. triple.
    apply Triple_modify. intros cg [Hd0 Hi]. split; [|exact Hi].
    simpl. rewrite Hd0. apply removelast_last.
  - triple.
  - unfold visit_Provide. triple.
    apply (Triple_bind _ (at_depth dims (ind + 5 * tab_size))).
    { apply Triple_modify. intros cg [Hd0 Hi]. split; [exact Hd0|].
      simpl. rewrite Hi. reflexivity. }
    intros _. triple.
    apply (Triple_bind _ (at_depth dims ind)).
    { apply Triple_modify. intros cg [Hd0 Hi]. split; [exact Hd0|].
      cbn [indent with_indent]. rewrite Hi. unfold tab_size. lia. }
    intros _. triple.
  - triple.
  - triple.
  - unfold visit_Realize. triple.
  - unfold visit_Block. triple.
  - triple.
  - triple.
Qed.

End Depth.

Lemma print_stmt_at_depth {H : Host} (fuel : nat) (s : Stmt)
      (dims : list Loop) (ind : Z) :
  Triple (at_depth dims ind) (print_stmt fuel s) (at_depth dims ind).
Proof.
  revert s dims ind. induction fuel as [|k IH]; intros s dims ind; simpl.
  - apply Triple_stuck.
  - apply visit_stmt_at_depth. exact IH.
Qed.

(** X9: a traversal that returns is balanced: the loop-dimension stack and the
    indentation are the ones it started with, whatever loops, stores and
    scopes the statement nests; the depth of the stack inside a loop is
    the nesting depth. *)
Theorem print_stmt_balanced {H : Host} (fuel : nat) (s : Stmt)
        (cg cg' : CodeGen_Coli) :
  print_stmt fuel s cg = (Done tt, cg') ->
  loop_dims cg' = loop_dims cg /\ indent cg' = indent cg.
Proof.
  intros E.
  apply (print_stmt_at_depth fuel s (loop_dims cg) (indent cg) cg tt cg');
    [split; reflexivity|exact E].
Qed.

(** A loop over [x] inside a loop over [y]: after the visit the stack holds
    [y] alone again. *)
Lemma print_stmt_balanced_witness :
  loop_dims (snd (print_stmt (H := Reference.host) 3 Samples.loop_x
                             Samples.in_loop))
  = [mkLoop "y" (make_const_i32 0) (make_const_i32 8)]
  /\ indent (snd (print_stmt (H := Reference.host) 3 Samples.loop_x
                             Samples.in_loop))
     = 0%Z.
Proof.
  refine (print_stmt_balanced (H := Reference.host) 3 Samples.loop_x
            Samples.in_loop
            (snd (print_stmt (H := Reference.host) 3 Samples.loop_x
                             Samples.in_loop)) _).
  vm_compute. reflexivity.
Defined.

(** ** Scopes of statement-level lets *)

Lemma compare_refl (s : string) : String.compare s s = Eq.
Proof.
  pose proof (String.compare_antisym s s) as E.
  destruct (String.compare s s); simpl in E; congruence.
Qed.

Lemma compare_Gt_neq (a b : string) :
  String.compare a b = Gt -> String.eqb a b = false.
Proof.
  intros E. destruct (String.eqb_spec a b) as [->|]; [|reflexivity].
  rewrite compare_refl in E. discriminate E.
Qed.

Lemma push_scope_ok (name : string) (value : Expr) (sc : Scope.t) :
  scope_ok sc -> scope_ok (Scope.push name value sc).
Proof.
  unfold scope_ok. induction sc as [|[k stack] rest IH]; simpl; intros Hok.
  - constructor; [discriminate|constructor].
  - inversion Hok as [|? ? Hk Hrest]; subst.
    destruct (String.compare name k).
    + constructor; [discriminate|exact Hrest].
    + constructor; [discriminate|exact Hok].
    + constructor; [exact Hk|apply IH; exact Hrest].
Qed.

Lemma pop_push (name : string) (value : Expr) (sc : Scope.t) :
  scope_ok sc -> Scope.pop name (Scope.push name value sc) = Some sc.
Proof.
  unfold scope_ok. induction sc as [|[k stack] rest IH]; simpl; intros Hok.
  - rewrite String.eqb_refl. reflexivity.
  - inversion Hok as [|? ? Hk Hrest]; subst. simpl in Hk.
    destruct (String.compare name k) eqn:E; simpl.
    + apply String.compare_eq_iff in E. subst k.
      rewrite String.eqb_refl. destruct stack; [contradiction|reflexivity].
    + rewrite String.eqb_refl. reflexivity.
    + rewrite (compare_Gt_neq _ _ E), (IH Hrest). reflexivity.
Qed.

Lemma get_push (name : string) (value : Expr) (sc : Scope.t) :
  Scope.get name (Scope.push name value sc) = Some value.
Proof.
  unfold Scope.get. induction sc as [|[k stack] rest IH]; simpl.
  - rewrite String.eqb_refl. reflexivity.
  - destruct (String.compare name k) eqn:E; simpl.
    + apply String.compare_eq_iff in E. subst k.
      rewrite String.eqb_refl. reflexivity.
    + rewrite String.eqb_refl. reflexivity.
    + rewrite (compare_Gt_neq _ _ E). exact IH.
Qed.

Lemma in_scope_stream (sc : Scope.t) : stable_stream (in_scope sc).
Proof. stable. Qed.

Lemma in_scope_indent (sc : Scope.t) : stable_indent (in_scope sc).
Proof. stable. Qed.

Lemma in_scope_loop_dims (sc : Scope.t) : stable_loop_dims (in_scope sc).
Proof. stable. Qed.

Lemma in_scope_temporaries (sc : Scope.t) : stable_temporaries (in_scope sc).
Proof. stable. Qed.

Lemma in_scope_computations (sc : Scope.t) : stable_computations (in_scope sc).
Proof. stable. Qed.

Lemma in_scope_constants (sc : Scope.t) : stable_constants (in_scope sc).
Proof. stable. Qed.

#[local] Hint Resolve in_scope_stream in_scope_indent in_scope_loop_dims
  in_scope_temporaries in_scope_computations in_scope_constants : inv.

Section LetScopes.

Context {H : Host}.

Lemma define_constant_in_scope (fuel : nat) (name : string) (val : Expr)
      (sc : Scope.t) :
  Inv (in_scope sc) (define_constant (print_expr fuel) name val).
Proof.
  pose proof (fun e => Inv_print_expr (in_scope sc) (in_scope_stream sc) fuel e)
    as Hp.
  unfold define_constant. inv.
Qed.

Lemma visit_stmt_in_scope (fuel : nat) (print : Stmt -> M unit) (s : Stmt) :
  (forall s sc, scope_ok sc -> Triple (in_scope sc) (print s) (in_scope sc)) ->
  forall sc, scope_ok sc ->
    Triple (in_scope sc) (visit_stmt (print_expr fuel) print s) (in_scope sc).
Proof.
  intros Hp sc Hok.
  pose proof (fun sc e =>
                Inv_print_expr (in_scope sc) (in_scope_stream sc) fuel e) as Hpe.
  pose proof (fun sc =>
                Inv_print_separated (in_scope sc) (in_scope_stream sc)
                                    (print_expr fuel)) as Hs.
  pose proof (fun name val sc => define_constant_in_scope fuel name val sc) as Hd.
  destruct s as [n v body | c m | n p body | n mn ext body | n v i
                | n vs args | n t es c body | n | n ts bs c body
                | first rest | c t e | v]; simpl;
    unfold visit_ProducerConsumer, visit_For, visit_Provide, visit_Realize,
      visit_Block;
    try solve [triple].
  unfold visit_LetStmt.
  apply (Triple_bind _ (in_scope (Scope.push n v sc))).
  { apply Triple_modify. intros cg Hc. unfold in_scope in *. simpl.
    rewrite Hc. reflexivity. }
  intros _.
  apply (Triple_bind _ (in_scope (Scope.push n v sc))).
  { apply Hp. apply push_scope_ok. exact Hok. }
  intros _. intros cg a cg' Hc E.
  unfold scope_pop in E. rewrite bind_gets in E.
  unfold in_scope in Hc. rewrite Hc, (pop_push n v sc Hok) in E.
  inversion E; subst. reflexivity.
Qed.

Lemma print_stmt_in_scope (fuel : nat) (s : Stmt) (sc : Scope.t) :
  scope_ok sc -> Triple (in_scope sc) (print_stmt fuel s) (in_scope sc).
Proof.
  revert s sc. induction fuel as [|k IH]; intros s sc Hok; simpl.
  - apply Triple_stuck.
  - apply visit_stmt_in_scope; [exact IH|exact Hok].
Qed.

End LetScopes.

(** X10: no binding of a statement-level let outlives the let: when no name of
    the scope is left with an empty stack, as in every scope built by
    pushes and pops, a traversal that returns leaves the scope exactly as
    it found it; pushing a binding and popping it gives the scope back,
    and a pushed binding is the one that is looked up. *)
Theorem print_stmt_restores_scope {H : Host} (fuel : nat) (s : Stmt)
        (cg cg' : CodeGen_Coli) (name : string) (value : Expr) :
  scope_ok (scope cg) ->
  print_stmt fuel s cg = (Done tt, cg') ->
  scope cg' = scope cg
  /\ Scope.pop name (Scope.push name value (scope cg)) = Some (scope cg)
  /\ Scope.get name (Scope.push name value (scope cg)) = Some value.
Proof.
  intros Hok E. split; [|split].
  - apply (print_stmt_in_scope fuel s (scope cg) Hok cg tt cg');
      [reflexivity|exact E].
  - apply pop_push. exact Hok.
  - apply get_push.
Qed.

(** A let of [t] around a loop, in the scope of [n], [m] and [e]. *)
Lemma print_stmt_restores_scope_witness :
  scope (snd (print_stmt (H := Reference.host) 4
                (LetStmt "t" (make_const_i32 1) Samples.loop_x)
                Samples.in_loop))
  = Samples.bounds_scope.
Proof.
  refine (proj1 (print_stmt_restores_scope (H := Reference.host) 4
                   (LetStmt "t" (make_const_i32 1) Samples.loop_x)
                   Samples.in_loop
                   (snd (print_stmt (H := Reference.host) 4
                           (LetStmt "t" (make_const_i32 1) Samples.loop_x)
                           Samples.in_loop))
                   "t" (make_const_i32 1) _ _)).
  - repeat constructor; discriminate.
  - vm_compute. reflexivity.
Defined.

(** ** Constants are defined once *)

Lemma Triple_False {A} (m : M A) (Q : CodeGen_Coli -> Prop) :
  Triple (fun _ => False) m Q.
Proof. intros cg a cg' []. Qed.

Lemma Triple_weaken {A} (P P' Q : CodeGen_Coli -> Prop) (m : M A) :
  (forall cg, P cg -> P' cg) -> Triple P' m Q -> Triple P m Q.
Proof. intros Hw Hm cg a cg' Hc E. eapply Hm; [apply Hw; exact Hc|exact E]. Qed.

Lemma has_constant_stream (x : string) : stable_stream (has_constant x).
Proof. stable. Qed.
Lemma has_constant_indent (x : string) : stable_indent (has_constant x).
Proof. stable. Qed.
Lemma has_constant_scope (x : string) : stable_scope (has_constant x).
Proof. stable. Qed.
Lemma has_constant_loop_dims (x : string) : stable_loop_dims (has_constant x).
Proof. stable. Qed.
Lemma has_constant_temporaries (x : string) :
  stable_temporaries (has_constant x).
Proof. stable. Qed.
Lemma has_constant_computations (x : string) :
  stable_computations (has_constant x).
Proof. stable. Qed.
Lemma has_constant_constants (x : string) : stable_constants (has_constant x).
Proof. stable. Qed.
Lemma clash_stream (a b : string) : stable_stream (clash a b).
Proof. stable. Qed.
Lemma clash_loop_dims (a b : string) : stable_loop_dims (clash a b).
Proof. stable. Qed.

#[local] Hint Resolve has_constant_stream has_constant_indent
  has_constant_scope has_constant_loop_dims has_constant_temporaries
  has_constant_computations has_constant_constants clash_stream
  clash_loop_dims : inv.

Section Constants.

Context {H : Host}.

Lemma define_constant_keeps (fuel : nat) (name : string) (val : Expr)
      (x : string) :
  Inv (has_constant x) (define_constant (print_expr fuel) name val).
Proof.
  pose proof (fun e => Inv_print_expr (has_constant x) (has_constant_stream x)
                         fuel e) as Hp.
  unfold define_constant. inv.
Qed.

Lemma define_constant_once (print : Expr -> M unit) (name : string)
      (val : Expr) (Q : CodeGen_Coli -> Prop) :
  Triple (has_constant name) (define_constant print name val) Q.
Proof.
  intros cg a cg' Hc E. unfold define_constant in E.
  rewrite bind_gets in E. unfold has_constant in Hc.
  unfold bind, internal_assert in E. rewrite Hc in E. discriminate E.
Qed.

Lemma define_constant_registers (print : Expr -> M unit) (name : string)
      (val : Expr) (P : CodeGen_Coli -> Prop) :
  Triple P (define_constant print name val) (has_constant name).
Proof.
  intros cg a cg' _ E. unfold define_constant in E.
  repeat match type of E with
         | bind _ _ _ = (Done _, _) =>
             apply bind_Done in E as [? [? [_ E]]]
         end.
  unfold insert_constant, modify in E. inversion E; subst.
  unfold has_constant. simpl. apply set_mem_insert_same.
Qed.

Lemma visit_For_clash (fuel : nat) (name min_name extent_name : string)
      (t1 t2 : Type_) (p1 i1 p2 i2 : bool) (body : Stmt) :
  Triple (clash min_name extent_name)
         (visit_stmt (print_expr fuel) (print_stmt fuel)
            (For name (Variable_ t1 min_name p1 i1)
                 (Variable_ t2 extent_name p2 i2) body))
         (fun _ => False).
Proof.
  simpl. unfold visit_For. cbn [as_Variable]. triple.
  apply (Triple_bind _ (has_constant extent_name)).
  { intros st u st' [Heq|[Hm|He]] E.
    - subst extent_name.
      eapply (define_constant_registers _ _ _ (fun _ => True)); [exact I|exact E].
    - eapply (define_constant_once _ _ _ _ st u st' Hm E).
    - match type of E with
      | define_constant _ _ ?v _ = _ =>
          pose proof (define_constant_keeps fuel min_name v extent_name st He)
            as K
      end.
      rewrite E in K. exact K. }
  intros _.
  apply (Triple_bind _ (fun _ => False)).
  { apply define_constant_once. }
  intros _. apply Triple_False.
Qed.

(** X11: a loop never returns from its visit when its min and its extent are
    the same variable, or when one of them names a constant that is
    already defined, as after an earlier loop with that bound: the second
    [define_constant] of a name is fatal. *)
Theorem visit_For_never_redefines
        (fuel : nat) (name min_name extent_name : string)
        (t1 t2 : Type_) (p1 i1 p2 i2 : bool) (body : Stmt) (cg : CodeGen_Coli) :
  min_name = extent_name
  \/ set_mem min_name (constant_list cg) = true
  \/ set_mem extent_name (constant_list cg) = true ->
  fst (visit_stmt (print_expr fuel) (print_stmt fuel)
         (For name (Variable_ t1 min_name p1 i1)
              (Variable_ t2 extent_name p2 i2) body) cg)
  <> Done tt.
Proof.
  intros Hc E.
  destruct (visit_stmt (print_expr fuel) (print_stmt fuel)
              (For name (Variable_ t1 min_name p1 i1)
                   (Variable_ t2 extent_name p2 i2) body) cg)
    as [o cg'] eqn:Ev.
  simpl in E. subst o.
  exact (visit_For_clash fuel name min_name extent_name t1 t2 p1 i1 p2 i2 body
           cg tt cg' Hc Ev).
Qed.

End Constants.

(** A loop from [m] of extent [m]: the second definition of [m] is
    fatal. *)
Lemma visit_For_never_redefines_witness :
  fst (visit_stmt (H := Reference.host)
         (print_expr (H := Reference.host) 3) (print_stmt (H := Reference.host) 3)
         (For "x" (Samples.var "m") (Samples.var "m")
              (Evaluate (make_const_i32 0)))
         Samples.in_loop)
  <> Done tt.
Proof.
  exact (visit_For_never_redefines (H := Reference.host) 3 "x" "m" "m"
           Int32 Int32 false false false false (Evaluate (make_const_i32 0))
           Samples.in_loop (or_introl eq_refl)).
Defined.

Section LoopConstants.

Context {H : Host}.

Lemma print_stmt_keeps_constant (fuel : nat) (s : Stmt) (x : string) :
  Inv (has_constant x) (print_stmt fuel s).
Proof.
  apply Inv_print_stmt; auto with inv.
Qed.

Lemma visit_For_defines (fuel : nat) (name min_name extent_name : string)
      (t1 t2 : Type_) (p1 i1 p2 i2 : bool) (body : Stmt)
      (cg cg' : CodeGen_Coli) :
  visit_stmt (print_expr fuel) (print_stmt fuel)
    (For name (Variable_ t1 min_name p1 i1) (Variable_ t2 extent_name p2 i2)
         body) cg
  = (Done tt, cg') ->
  has_constant min_name cg' /\ has_constant extent_name cg'.
Proof.
  intros E. simpl in E. unfold visit_For in E. cbn [as_Variable] in E.
  apply bind_Done in E as [? [c1 [_ E]]].
  apply bind_Done in E as [mv [c2 [_ E]]].
  apply bind_Done in E as [ev [c3 [_ E]]].
  rewrite bind_gets in E.
  apply bind_Done in E as [? [c4 [_ E]]].
  apply bind_Done in E as [? [c5 [_ E]]].
  apply bind_Done in E as [[] [c6 [E1 E]]].
  apply bind_Done in E as [[] [c7 [E2 E]]].
  assert (K : forall y, has_constant y c7 -> has_constant y cg').
  { intros y Hy.
    assert (Hi : Inv (has_constant y)
                     (emit nl ;; print_stmt fuel body ;; pop_loop_dim)%cg).
    { pose proof (print_stmt_keeps_constant fuel body y). inv. }
    specialize (Hi c7 Hy). rewrite E in Hi. exact Hi. }
  split; apply K.
  - match type of E2 with
    | define_constant _ _ ?v _ = _ =>
        pose proof (define_constant_keeps fuel extent_name v min_name c6) as K2
    end.
    rewrite E2 in K2. apply K2.
    eapply (define_constant_registers _ _ _ (fun _ => True)); [exact I|exact E1].
  - eapply (define_constant_registers _ _ _ (fun _ => True)); [exact I|exact E2].
Qed.

(** X12: a loop whose visit returns has defined its two bounds as constants,
    and from then on a reference to either bound is rendered as an
    application of the constant, [name(0)], not as a loop index. *)
Theorem visit_For_defines_bounds
        (fuel : nat) (name min_name extent_name : string)
        (t1 t2 : Type_) (p1 i1 p2 i2 : bool) (body : Stmt)
        (cg cg' : CodeGen_Coli) :
  visit_stmt (print_expr fuel) (print_stmt fuel)
    (For name (Variable_ t1 min_name p1 i1) (Variable_ t2 extent_name p2 i2)
         body) cg
  = (Done tt, cg') ->
  forall x, x = min_name \/ x = extent_name ->
    set_mem x (constant_list cg') = true
    /\ forall print t,
        visit_expr print (Variable_ t x false false) cg'
        = (Done tt, with_stream cg' (stream cg' ++ x ++ "(0)")).
Proof.
  intros E x Hx.
  destruct (visit_For_defines fuel name min_name extent_name t1 t2 p1 i1 p2 i2
              body cg cg' E) as [Hm He].
  assert (Hc : set_mem x (constant_list cg') = true)
    by (destruct Hx; subst x; assumption).
  split; [exact Hc|].
  intros print t.
  unfold visit_expr, visit_Variable, bind, user_assert, gets, ret.
  cbn [negb andb]. rewrite Hc. reflexivity.
Qed.

End LoopConstants.

(** After the loop over [x] from [m] of extent [e], a reference to [e] is
    rendered as the constant. *)
Lemma visit_For_defines_bounds_witness :
  fst (visit_expr (H := Reference.host) (fun _ => ret tt) (Samples.var "e")
         (snd (visit_stmt (H := Reference.host)
                 (print_expr (H := Reference.host) 3)
                 (print_stmt (H := Reference.host) 3)
                 Samples.loop_x Samples.in_loop)))
  = Done tt
  /\ set_mem "e"
       (constant_list
          (snd (visit_stmt (H := Reference.host)
                  (print_expr (H := Reference.host) 3)
                  (print_stmt (H := Reference.host) 3)
                  Samples.loop_x Samples.in_loop)))
     = true.
Proof.
  assert (E : visit_stmt (H := Reference.host)
                (print_expr (H := Reference.host) 3)
                (print_stmt (H := Reference.host) 3)
                Samples.loop_x Samples.in_loop
              = (Done tt,
                 snd (visit_stmt (H := Reference.host)
                        (print_expr (H := Reference.host) 3)
                        (print_stmt (H := Reference.host) 3)
                        Samples.loop_x Samples.in_loop)))
    by (vm_compute; reflexivity).
  destruct (visit_For_defines_bounds (H := Reference.host) 3 "x" "m" "e"
              Int32 Int32 false false false false (Evaluate (make_const_i32 0))
              Samples.in_loop _ E "e" (or_intror eq_refl)) as [Hc Hv].
  split; [|exact Hc].
  exact (f_equal fst (Hv (fun _ => ret tt) Int32)).
Defined.

(** ** What the constructor declares *)

Lemma set_mem_insert (x y : string) (s : StrSet) :
  set_mem x (set_insert y s) = String.eqb x y || set_mem x s.
Proof.
  unfold set_mem. induction s as [|z s IH]; simpl; [reflexivity|].
  destruct (String.compare y z) eqn:E; simpl.
  - apply String.compare_eq_iff in E. subst z.
    destruct (String.eqb x y); reflexivity.
  - reflexivity.
  - rewrite IH. destruct (String.eqb x y), (String.eqb x z); reflexivity.
Qed.

Lemma Triple_post {A} (P Q Q' : CodeGen_Coli -> Prop) (m : M A) :
  (forall cg, Q cg -> Q' cg) -> Triple P m Q -> Triple P m Q'.
Proof. intros Hw Hm cg a cg' Hc E. apply Hw. eapply Hm; [exact Hc|exact E]. Qed.

Section KeptByConstructor.

Context {H : Host}.
Variable P : CodeGen_Coli -> Prop.
Hypothesis P_stream : stable_stream P.
Hypothesis P_scope : stable_scope P.
Hypothesis P_loop_dims : stable_loop_dims P.
Hypothesis P_outputs : stable_outputs P.
Hypothesis P_inputs : stable_inputs P.
Hypothesis P_computations : stable_computations P.

Lemma Inv_output_sizes (fname : string) (buffer_extents : list Z) (i : nat) :
  Inv P (output_sizes fname i buffer_extents).
Proof.
  revert i. induction buffer_extents as [|e rest IH]; intros i; simpl; inv.
Qed.

Lemma Inv_allocate_output (f : Function) (e : list Z) (t : Type_) :
  Inv P (allocate_output f e t).
Proof. pose proof Inv_output_sizes as Hs. unfold allocate_output. inv. Qed.

Lemma Inv_allocate_outputs (outputs : list Function) (extents : list (list Z))
      (types : list Type_) :
  Inv P (allocate_outputs outputs extents types).
Proof.
  pose proof Inv_allocate_output as Ha.
  revert extents types.
  induction outputs as [|f outputs IH]; intros [|e extents] [|t types];
    simpl; inv.
Qed.

Lemma Inv_input_sizes (buffer_extents : list Z) (i : nat) :
  Inv P (input_sizes i buffer_extents).
Proof.
  revert i. induction buffer_extents as [|e rest IH]; intros i; simpl; inv.
Qed.

Lemma Inv_pop_loop_dims (count : nat) : Inv P (pop_loop_dims count).
Proof. induction count; simpl; inv. Qed.

Lemma Inv_bind_input (n : string) (e : list Z) (t : Type_) :
  Inv P (bind_input n e t).
Proof.
  pose proof Inv_input_sizes as Hs. pose proof Inv_pop_loop_dims as Hq.
  unfold bind_input. inv.
Qed.

Lemma Inv_bind_inputs (inputs : list string) (extents : list (list Z))
      (types : list Type_) :
  Inv P (bind_inputs inputs extents types).
Proof.
  pose proof Inv_bind_input as Hb.
  revert extents types.
  induction inputs as [|n inputs IH]; intros [|e extents] [|t types];
    simpl; inv.
Qed.

End KeptByConstructor.

#[local] Hint Extern 2 (stable_stream _) => solve [stable] : inv.
#[local] Hint Extern 2 (stable_indent _) => solve [stable] : inv.
#[local] Hint Extern 2 (stable_scope _) => solve [stable] : inv.
#[local] Hint Extern 2 (stable_loop_dims _) => solve [stable] : inv.
#[local] Hint Extern 2 (stable_outputs _) => solve [stable] : inv.
#[local] Hint Extern 2 (stable_inputs _) => solve [stable] : inv.
#[local] Hint Extern 2 (stable_temporaries _) => solve [stable] : inv.
#[local] Hint Extern 2 (stable_computations _) => solve [stable] : inv.
#[local] Hint Extern 2 (stable_constants _) => solve [stable] : inv.

#[local] Hint Resolve Inv_allocate_outputs Inv_bind_inputs Inv_output_sizes
  Inv_input_sizes Inv_pop_loop_dims : inv.

Lemma dummy_loops_length (i : nat) (e : list Z) :
  List.length (dummy_loops i e) = List.length e.
Proof. revert i. induction e as [|x e IH]; intros i; simpl; [|rewrite IH]; reflexivity. Qed.

Section ConstructorDepth.

Context {H : Host}.

Lemma input_sizes_at_depth (e : list Z) (i : nat) (dims : list Loop) (ind : Z) :
  Triple (at_depth dims ind) (input_sizes i e)
         (at_depth (dims ++ dummy_loops i e) ind).
Proof.
  revert i dims. induction e as [|x e IH]; intros i dims; simpl.
  - rewrite app_nil_r. apply Triple_ret.
  - apply (Triple_bind _ (at_depth (dims ++ [mkLoop ("i" ++ string_of_nat i)
                                               (make_const_i32 0)
                                               (make_const_i32 x)]) ind)).
    { apply Triple_modify. intros cg [Hd Hi]. split; [|exact Hi].
      simpl. rewrite Hd. reflexivity. }
    intros _.
    apply (Triple_bind _ (at_depth (dims ++ mkLoop ("i" ++ string_of_nat i)
                                               (make_const_i32 0)
                                               (make_const_i32 x)
                                         :: dummy_loops (S i) e) ind)).
    { eapply Triple_post; [|apply IH].
      intros cg Hc. rewrite <- app_assoc in Hc. exact Hc. }
    intros tail. apply Triple_ret.
Qed.

Lemma pop_loop_dims_at_depth (pushed dims : list Loop) (ind : Z) :
  Triple (at_depth (dims ++ pushed) ind) (pop_loop_dims (List.length pushed))
         (at_depth dims ind).
Proof.
  induction pushed as [|x pushed IH] using rev_ind; simpl.
  - rewrite app_nil_r. apply Triple_ret.
  - rewrite List.length_app, Nat.add_comm. simpl.
    apply (Triple_bind _ (at_depth (dims ++ pushed) ind)); [|intros _; exact IH].
    apply Triple_modify. intros cg [Hd Hi]. split; [|exact Hi].
    simpl. rewrite Hd, app_assoc. apply removelast_last.
Qed.

Lemma bind_input_at_depth (n : string) (e : list Z) (t : Type_)
      (dims : list Loop) (ind : Z) :
  Triple (at_depth dims ind) (bind_input n e t) (at_depth dims ind).
Proof.
  unfold bind_input.
  apply (Triple_bind _ (at_depth (dims ++ dummy_loops 0 e) ind));
    [apply input_sizes_at_depth|intros dims_sizes].
  triple.
  rewrite <- (dummy_loops_length 0 e). apply pop_loop_dims_at_depth.
Qed.

Lemma bind_inputs_at_depth (inputs : list string) (extents : list (list Z))
      (types : list Type_) (dims : list Loop) (ind : Z) :
  Triple (at_depth dims ind) (bind_inputs inputs extents types)
         (at_depth dims ind).
Proof.
  pose proof bind_input_at_depth as Hb.
  revert extents types.
  induction inputs as [|n inputs IH]; intros [|e extents] [|t types];
    simpl; triple.
Qed.

Lemma ctor_at_depth (b : Buffers) (dims : list Loop) (ind : Z) :
  Triple (at_depth dims ind) (CodeGen_Coli_ctor b)
         (at_depth dims (ind + tab_size)).
Proof.
  pose proof bind_inputs_at_depth as Hb.
  unfold CodeGen_Coli_ctor. triple.
  apply (Triple_bind _ (at_depth dims (ind + tab_size))).
  { apply Triple_modify. intros cg [Hd Hi]. split; [exact Hd|].
    simpl. rewrite Hi. reflexivity. }
  intros _. triple.
Qed.

End ConstructorDepth.

Section ConstructorRegistries.

Context {H : Host}.

Lemma allocate_output_registers (S : string -> Prop) (f : Function)
      (e : list Z) (t : Type_) :
  Triple (outputs_are S) (allocate_output f e t)
         (outputs_are (fun x => S x \/ x = buff (fname f))).
Proof.
  unfold allocate_output. triple.
  apply Triple_modify. intros cg Hc x. simpl.
  rewrite set_mem_insert, orb_true_iff, String.eqb_eq, (Hc x). tauto.
Qed.

Lemma allocate_outputs_registers (outputs : list Function)
      (extents : list (list Z)) (types : list Type_) (S : string -> Prop) :
  List.length outputs = List.length extents ->
  List.length extents = List.length types ->
  Triple (outputs_are S) (allocate_outputs outputs extents types)
         (outputs_are (fun x => S x \/ In x (map (fun f => buff (fname f)) outputs))).
Proof.
  revert extents types S.
  induction outputs as [|f outputs IH]; intros [|e extents] [|t types] S;
    simpl; intros L1 L2; try discriminate.
  - eapply Triple_post; [|apply Triple_ret]. intros cg Hc x.
    rewrite (Hc x). tauto.
  - apply (Triple_bind _ (outputs_are (fun x => S x \/ x = buff (fname f))));
      [apply allocate_output_registers|intros _].
    eapply Triple_post; [|apply IH; congruence].
    intros cg Hc x. rewrite (Hc x). simpl. intuition congruence.
Qed.

Lemma bind_input_registers (S : string -> Prop) (n : string) (e : list Z)
      (t : Type_) :
  Triple (inputs_are S) (bind_input n e t)
         (inputs_are (fun x => S x \/ x = buff n)).
Proof.
  unfold bind_input. triple.
  apply (Triple_bind _ (inputs_are (fun x => S x \/ x = buff n))).
  { apply Triple_modify. intros cg Hc x. simpl.
    rewrite set_mem_insert, orb_true_iff, String.eqb_eq, (Hc x). tauto. }
  intros _. triple.
Qed.

Lemma bind_input_computes (S : string -> Prop) (n : string) (e : list Z)
      (t : Type_) :
  Triple (computations_are S) (bind_input n e t)
         (computations_are (fun x => S x \/ x = n)).
Proof.
  unfold bind_input. triple.
  apply (Triple_bind _ (computations_are (fun x => S x \/ x = n))).
  { apply Triple_modify. intros cg Hc x. simpl.
    rewrite set_mem_insert, orb_true_iff, String.eqb_eq, (Hc x). tauto. }
  intros _. triple.
Qed.

Lemma bind_inputs_registers (inputs : list string) (extents : list (list Z))
      (types : list Type_) (S : string -> Prop) :
  List.length inputs = List.length extents ->
  List.length extents = List.length types ->
  Triple (inputs_are S) (bind_inputs inputs extents types)
         (inputs_are (fun x => S x \/ In x (map buff inputs))).
Proof.
  revert extents types S.
  induction inputs as [|n inputs IH]; intros [|e extents] [|t types] S;
    simpl; intros L1 L2; try discriminate.
  - eapply Triple_post; [|apply Triple_ret]. intros cg Hc x.
    rewrite (Hc x). tauto.
  - apply (Triple_bind _ (inputs_are (fun x => S x \/ x = buff n)));
      [apply bind_input_registers|intros _].
    eapply Triple_post; [|apply IH; congruence].
    intros cg Hc x. rewrite (Hc x). simpl. intuition congruence.
Qed.

Lemma bind_inputs_computes (inputs : list string) (extents : list (list Z))
      (types : list Type_) (S : string -> Prop) :
  List.length inputs = List.length extents ->
  List.length extents = List.length types ->
  Triple (computations_are S) (bind_inputs inputs extents types)
         (computations_are (fun x => S x \/ In x inputs)).
Proof.
  revert extents types S.
  induction inputs as [|n inputs IH]; intros [|e extents] [|t types] S;
    simpl; intros L1 L2; try discriminate.
  - eapply Triple_post; [|apply Triple_ret]. intros cg Hc x.
    rewrite (Hc x). tauto.
  - apply (Triple_bind _ (computations_are (fun x => S x \/ x = n)));
      [apply bind_input_computes|intros _].
    eapply Triple_post; [|apply IH; congruence].
    intros cg Hc x. rewrite (Hc x). simpl. intuition congruence.
Qed.

Lemma ctor_outputs (b : Buffers) (S : string -> Prop) :
  List.length (outputs b) = List.length (output_buffer_extents b) ->
  List.length (output_buffer_extents b) = List.length (output_buffer_types b) ->
  Triple (outputs_are S) (CodeGen_Coli_ctor b)
         (outputs_are
            (fun x => S x \/ In x (map (fun f => buff (fname f)) (outputs b)))).
Proof.
  intros L1 L2. unfold CodeGen_Coli_ctor. triple.
  apply (Triple_bind _ (outputs_are
            (fun x => S x \/ In x (map (fun f => buff (fname f)) (outputs b)))));
    [apply allocate_outputs_registers; assumption|intros _].
  triple.
Qed.

Lemma ctor_inputs (b : Buffers) (S : string -> Prop) :
  List.length (inputs b) = List.length (input_buffer_extents b) ->
  List.length (input_buffer_extents b) = List.length (input_buffer_types b) ->
  Triple (inputs_are S) (CodeGen_Coli_ctor b)
         (inputs_are (fun x => S x \/ In x (map buff (inputs b)))).
Proof.
  intros L1 L2.
  pose proof (bind_inputs_registers (inputs b) (input_buffer_extents b)
                (input_buffer_types b) S L1 L2) as Hb.
  unfold CodeGen_Coli_ctor. triple.
Qed.

Lemma ctor_computations (b : Buffers) (S : string -> Prop) :
  List.length (inputs b) = List.length (input_buffer_extents b) ->
  List.length (input_buffer_extents b) = List.length (input_buffer_types b) ->
  Triple (computations_are S) (CodeGen_Coli_ctor b)
         (computations_are (fun x => S x \/ In x (inputs b))).
Proof.
  intros L1 L2.
  pose proof (bind_inputs_computes (inputs b) (input_buffer_extents b)
                (input_buffer_types b) S L1 L2) as Hb.
  unfold CodeGen_Coli_ctor. triple.
Qed.

Lemma ctor_untouched (b : Buffers) (c0 : CodeGen_Coli) :
  Inv (untouched c0) (CodeGen_Coli_ctor b).
Proof. unfold CodeGen_Coli_ctor. inv. Qed.

Lemma ctor_sizes (b : Buffers) (cg cg' : CodeGen_Coli) :
  CodeGen_Coli_ctor b cg = (Done tt, cg') ->
  List.length (outputs b) = List.length (output_buffer_extents b)
  /\ List.length (output_buffer_extents b) = List.length (output_buffer_types b)
  /\ List.length (inputs b) = List.length (input_buffer_extents b)
  /\ List.length (input_buffer_extents b) = List.length (input_buffer_types b).
Proof.
  unfold CodeGen_Coli_ctor, bind, internal_assert. intros E.
  repeat match type of E with
         | context [Nat.eqb ?a ?b] =>
             destruct (Nat.eqb_spec a b); [|discriminate E]
         end.
  auto.
Qed.

End ConstructorRegistries.

(** X13: the constructor, when it returns, has checked that its parallel
    vectors have equal sizes; it has added one step of indentation and
    left the loop-dimension stack, the function name and the registries of
    temporary buffers and constants as they were; and it has registered
    exactly the buffer [buff_f] of every output [f], the buffer [buff_n]
    of every input [n], and every input as a computation. *)
Theorem CodeGen_Coli_ctor_declares {H : Host} (b : Buffers)
        (cg cg' : CodeGen_Coli) :
  CodeGen_Coli_ctor b cg = (Done tt, cg') ->
  (List.length (outputs b) = List.length (output_buffer_extents b)
   /\ List.length (output_buffer_extents b) = List.length (output_buffer_types b)
   /\ List.length (inputs b) = List.length (input_buffer_extents b)
   /\ List.length (input_buffer_extents b) = List.length (input_buffer_types b))
  /\ indent cg' = (indent cg + tab_size)%Z
  /\ loop_dims cg' = loop_dims cg
  /\ func cg' = func cg
  /\ temporary_buffers cg' = temporary_buffers cg
  /\ constant_list cg' = constant_list cg
  /\ (forall x, set_mem x (output_buffers cg') = true <->
                set_mem x (output_buffers cg) = true
                \/ In x (map (fun f => "buff_" ++ fname f) (outputs b)))
  /\ (forall x, set_mem x (input_buffers cg') = true <->
                set_mem x (input_buffers cg) = true
                \/ In x (map (fun n => "buff_" ++ n) (inputs b)))
  /\ (forall x, set_mem x (computation_list cg') = true <->
                set_mem x (computation_list cg) = true \/ In x (inputs b)).
Proof.
  intros E.
  pose proof (ctor_sizes b cg cg' E) as [L1 [L2 [L3 L4]]].
  pose proof (ctor_at_depth b (loop_dims cg) (indent cg) cg tt cg'
                (conj eq_refl eq_refl) E) as [Hd Hi].
  pose proof (ctor_untouched b cg cg) as Hu. rewrite E in Hu.
  destruct Hu as [Hf [Ht Hc]]; [repeat split|].
  split; [auto|].
  repeat (split; [assumption|]).
  split; [|split].
  - exact (ctor_outputs b (fun x => set_mem x (output_buffers cg) = true)
             L1 L2 cg tt cg' (fun x => iff_refl _) E).
  - exact (ctor_inputs b (fun x => set_mem x (input_buffers cg) = true)
             L3 L4 cg tt cg' (fun x => iff_refl _) E).
  - exact (ctor_computations b (fun x => set_mem x (computation_list cg) = true)
             L3 L4 cg tt cg' (fun x => iff_refl _) E).
Qed.

(** The constructor for one output [f] and one input [in]: the
    indentation is one step, and [in] is a computation. *)
Lemma CodeGen_Coli_ctor_declares_witness :
  indent (snd (CodeGen_Coli_ctor (H := Reference.host) Runs.in_out (initial "p")))
  = 4%Z
  /\ set_mem "in"
       (computation_list
          (snd (CodeGen_Coli_ctor (H := Reference.host) Runs.in_out
                                  (initial "p"))))
     = true.
Proof.
  assert (E : CodeGen_Coli_ctor (H := Reference.host) Runs.in_out (initial "p")
              = (Done tt,
                 snd (CodeGen_Coli_ctor (H := Reference.host) Runs.in_out
                                        (initial "p"))))
    by (vm_compute; reflexivity).
  destruct (CodeGen_Coli_ctor_declares (H := Reference.host) Runs.in_out
              (initial "p") _ E)
    as [_ [Hi [_ [_ [_ [_ [_ [_ Hc]]]]]]]].
  split; [exact Hi|].
  apply Hc. right. left. reflexivity.
Defined.

(** ** A translation that returns *)

Lemma CodeGen_Coli_dtor_run {H : Host} (cg : CodeGen_Coli) :
  CodeGen_Coli_dtor cg
  = (Done tt,
     with_indent
       (with_stream cg
          (stream cg ++ epilogue (func cg) (indent cg)
                                 (output_buffers cg) (input_buffers cg)))
       (indent cg - tab_size)).
Proof.
  destruct cg as [s i f sc ld outs ins tmp comps consts].
  unfold CodeGen_Coli_dtor, epilogue, bound_arguments.
  rewrite !bind_gets.
  cbn [stream indent func output_buffers input_buffers].
  rewrite output_arguments_concat, input_arguments_concat.
  rewrite map_app, string_concat_app.
  replace (0 <? 0 + Z.of_nat (List.length outs))%Z with (nonempty outs)
    by (destruct outs; [reflexivity|]; simpl List.length; symmetry;
        apply Z.ltb_lt; lia).
  replace (nonempty (map (fun b => "&" ++ b) outs)) with (nonempty outs)
    by (destruct outs; reflexivity).
  replace (nonempty (map (fun b => "&" ++ b) ins)) with (nonempty ins)
    by (destruct ins; reflexivity).
  cbv [bind gets emit do_indent add_indent modify with_stream with_indent
       stream indent func scope loop_dims output_buffers input_buffers
       temporary_buffers computation_list constant_list].
  rewrite !append_assoc.
  replace (i + - tab_size)%Z with (i - tab_size)%Z by lia.
  reflexivity.
Qed.

Lemma internal_assert_Done (c : bool) (msg : string) (cg cg' : CodeGen_Coli) :
  internal_assert c msg cg = (Done tt, cg') -> cg' = cg.
Proof. destruct c; intros E; inversion E. reflexivity. Qed.

Lemma ctor_prologue {H : Host} (b : Buffers) (cg cg' : CodeGen_Coli) :
  CodeGen_Coli_ctor b cg = (Done tt, cg') ->
  exists w, stream cg' = stream cg ++ (headers ++ nl ++ nl) ++ w.
Proof.
  pose proof Grows_allocate_outputs as Ho.
  pose proof Grows_bind_inputs as Hi.
  unfold CodeGen_Coli_ctor. intros E.
  apply bind_Done in E as [[] [c1 [E1 E]]].
  apply internal_assert_Done in E1. subst c1.
  apply bind_Done in E as [[] [c1 [E1 E]]].
  apply internal_assert_Done in E1. subst c1.
  apply bind_Done in E as [[] [c1 [E1 E]]].
  apply internal_assert_Done in E1. subst c1.
  apply bind_Done in E as [[] [c1 [E1 E]]].
  apply internal_assert_Done in E1. subst c1.
  apply bind_Done in E as [[] [c1 [E1 E]]].
  inversion E1; subst c1. clear E1.
  match type of E with
  | ?m _ = _ => assert (G : Grows m) by grows
  end.
  match type of E with
  | _ ?c = _ => specialize (G c)
  end.
  rewrite E in G. destruct G as [[w [Ew _]] _].
  exists w. cbn [snd stream with_stream] in Ew. rewrite Ew.
  apply append_assoc.
Qed.

(** X14: a translation that returns has written a finalized program: the
    stream is the header block, then the declarations and the body, then
    the epilogue for the pipeline name at one step of indentation, which
    binds exactly the buffers of the declared outputs and inputs; the
    closing brace is in the first column, and the loop-dimension stack is
    empty again. *)
Theorem print_to_coli_finalized {H : Host} (fuel : nat) (s : Stmt)
        (pipeline_name : string) (b : Buffers) (cg : CodeGen_Coli) :
  print_to_coli fuel s pipeline_name b = (Done tt, cg) ->
  (exists body,
      stream cg
      = (headers ++ nl ++ nl) ++ body
        ++ epilogue pipeline_name tab_size (output_buffers cg) (input_buffers cg))
  /\ closes_function_body (stream cg)
  /\ indent cg = 0%Z
  /\ loop_dims cg = []
  /\ (forall x, set_mem x (output_buffers cg) = true <->
                In x (map (fun f => "buff_" ++ fname f) (outputs b)))
  /\ (forall x, set_mem x (input_buffers cg) = true <->
                In x (map (fun n => "buff_" ++ n) (inputs b))).
Proof.
  unfold print_to_coli. intros E.
  apply bind_Done in E as [[] [c0 [E0 E]]].
  apply bind_Done in E as [[] [c1 [E1 E]]].
  rewrite CodeGen_Coli_dtor_run in E. inversion E as [Ecg]. clear E.
  destruct (ctor_prologue b _ _ E0) as [w0 Ew0].
  pose proof (ctor_at_depth b [] 0 (initial pipeline_name) tt c0
                (conj eq_refl eq_refl) E0) as [Hd0 Hi0].
  pose proof (ctor_untouched b (initial pipeline_name) (initial pipeline_name)
                ltac:(repeat split)) as Hu.
  rewrite E0 in Hu. cbn [snd] in Hu. destruct Hu as [Hf0 _].
  pose proof (ctor_sizes b _ _ E0) as [L1 [L2 [L3 L4]]].
  assert (Ho0 : outputs_are
                  (fun x => False
                            \/ In x (map (fun f => buff (fname f)) (outputs b)))
                  c0).
  { apply (ctor_outputs b (fun _ => False) L1 L2 (initial pipeline_name) tt c0);
      [|exact E0].
    intros x. split; [intros Hx; discriminate Hx|intros []]. }
  assert (Hn0 : inputs_are (fun x => False \/ In x (map buff (inputs b))) c0).
  { apply (ctor_inputs b (fun _ => False) L3 L4 (initial pipeline_name) tt c0);
      [|exact E0].
    intros x. split; [intros Hx; discriminate Hx|intros []]. }
  pose proof (print_stmt_at_depth fuel (normalize_stmt s) (loop_dims c0)
                (indent c0) c0 tt c1 (conj eq_refl eq_refl) E1) as [Hd1 Hi1].
  assert (K : declared_in c0 EmptyString EmptyString c1).
  { pose proof (Inv_print_stmt (declared_in c0 EmptyString EmptyString)) as Hk.
    specialize (Hk ltac:(stable) ltac:(stable) ltac:(stable) ltac:(stable)
                   ltac:(stable) ltac:(stable) ltac:(stable)
                   fuel (normalize_stmt s) c0 (declared_in_refl _ _ _)).
    rewrite E1 in Hk. exact Hk. }
  cbn [snd] in K.
  destruct K as [Hf1 [Ho1 [Hn1 _]]].
  destruct (Grows_print_stmt fuel (normalize_stmt s) c0) as [[w1 [Ew1 _]] _].
  rewrite E1 in Ew1. simpl in Ew1.
  assert (Es : stream
                 (with_indent
                    (with_stream c1
                       (stream c1 ++ epilogue (func c1) (indent c1)
                                      (output_buffers c1) (input_buffers c1)))
                    (indent c1 - tab_size))
               = (headers ++ nl ++ nl) ++ (w0 ++ w1)
                 ++ epilogue pipeline_name tab_size (output_buffers c1)
                             (input_buffers c1)).
  { cbn [stream with_indent with_stream].
    rewrite Ew1, Ew0, Hf1, Hf0, Hi1, Hi0. simpl (stream (initial _)).
    simpl (func (initial _)). rewrite !append_assoc. reflexivity. }
  repeat split.
  - exists (w0 ++ w1). exact Es.
  - rewrite Es. unfold epilogue, closes_function_body.
    eexists. rewrite <- !append_assoc. reflexivity.
  - cbn [indent with_indent with_stream]. rewrite Hi1, Hi0. reflexivity.
  - cbn [loop_dims with_indent with_stream]. rewrite Hd1, Hd0. reflexivity.
  - cbn [output_buffers with_indent with_stream]. rewrite Ho1.
    intros Hx. apply Ho0 in Hx. destruct Hx as [[]|Hx]. exact Hx.
  - cbn [output_buffers with_indent with_stream]. rewrite Ho1.
    intros Hx. apply Ho0. right. exact Hx.
  - cbn [input_buffers with_indent with_stream]. rewrite Hn1.
    intros Hx. apply Hn0 in Hx. destruct Hx as [[]|Hx]. exact Hx.
  - cbn [input_buffers with_indent with_stream]. rewrite Hn1.
    intros Hx. apply Hn0. right. exact Hx.
Qed.

(** The translation of [f(x) = in(x) + 1] over a loop of four iterations
    returns, and its text ends with the closing of the function body. *)
Lemma print_to_coli_finalized_witness :
  fst (print_to_coli (H := Reference.host) 10 Runs.increment "p" Runs.in_out)
  = Done tt
  /\ closes_function_body
       (stream (snd (print_to_coli (H := Reference.host) 10 Runs.increment "p"
                                   Runs.in_out)))
  /\ indent (snd (print_to_coli (H := Reference.host) 10 Runs.increment "p"
                                Runs.in_out))
     = 0%Z.
Proof.
  assert (E : print_to_coli (H := Reference.host) 10 Runs.increment "p"
                            Runs.in_out
              = (Done tt,
                 snd (print_to_coli (H := Reference.host) 10 Runs.increment "p"
                                    Runs.in_out)))
    by (vm_compute; reflexivity).
  destruct (print_to_coli_finalized (H := Reference.host) 10 Runs.increment "p"
              Runs.in_out _ E) as [_ [Hc [Hi _]]].
  split; [vm_compute; reflexivity|]. split; [exact Hc|exact Hi].
Defined.

(** ** Temporary buffers and calls *)

Lemma has_temporary_stable_all (x : string) :
  stable_stream (has_temporary x) /\ stable_indent (has_temporary x)
  /\ stable_scope (has_temporary x) /\ stable_loop_dims (has_temporary x)
  /\ stable_temporaries (has_temporary x)
  /\ stable_computations (has_temporary x)
  /\ stable_constants (has_temporary x).
Proof. repeat split; stable. Qed.

Section Realizations.

Context {H : Host}.

Lemma print_stmt_keeps_temporary (fuel : nat) (s : Stmt) (x : string) :
  Inv (has_temporary x) (print_stmt fuel s).
Proof. apply Inv_print_stmt; apply (has_temporary_stable_all x). Qed.

Lemma user_assert_Done (c : bool) (msg : string) (cg cg' : CodeGen_Coli) :
  user_assert c msg cg = (Done tt, cg') -> c = true /\ cg' = cg.
Proof. destruct c; intros E; inversion E. split; reflexivity. Qed.

(** X15: a realization whose visit returns found its buffer name free, and
    printed its body with the temporary buffer [buff_name] registered, so
    that a store to [name] in the body finds its buffer; afterwards, in
    whatever later state whose registry of temporary buffers still holds
    what it held then, a second realization of [name] is a user error and
    writes nothing. *)
Theorem visit_Realize_declares
        (fuel : nat) (name : string) (types : list Type_) (bounds : list Range)
        (condition : Expr) (body : Stmt) (cg cg' : CodeGen_Coli) :
  visit_stmt (print_expr fuel) (print_stmt fuel)
             (Realize name types bounds condition body) cg
  = (Done tt, cg') ->
  set_mem ("buff_" ++ name) (temporary_buffers cg) = false
  /\ (exists c1, set_mem ("buff_" ++ name) (temporary_buffers c1) = true
                 /\ print_stmt fuel body c1 = (Done tt, cg'))
  /\ forall cg2,
      (forall x, set_mem x (temporary_buffers cg') = true ->
                 set_mem x (temporary_buffers cg2) = true) ->
      forall print_e print types' bounds' condition' body',
        visit_stmt print_e print
                   (Realize name types' bounds' condition' body') cg2
        = (Fatal User
             ("Duplicate allocation (i.e. duplicate compute) is not currently "
              ++ "supported." ++ nl), cg2).
Proof.
  intros E. simpl in E. unfold visit_Realize in E.
  rewrite bind_gets in E.
  apply bind_Done in E as [[] [c1 [E1 E]]].
  apply user_assert_Done in E1 as [Hfree ->].
  apply negb_true_iff in Hfree.
  repeat match type of E with
         | bind (insert_temporary_buffer _) _ _ = (Done _, _) => fail 1
         | bind _ _ _ = (Done _, _) =>
             apply bind_Done in E as [? [? [_ E]]]
         | (match ?v with _ => _ end) _ = _ => destruct v; try discriminate E
         end.
  apply bind_Done in E as [[] [c2 [E2 E]]].
  assert (Hreg : set_mem ("buff_" ++ name) (temporary_buffers c2) = true).
  { unfold insert_temporary_buffer, modify in E2. inversion E2; subst c2.
    simpl. apply set_mem_insert_same. }
  split; [exact Hfree|]. split; [exists c2; split; assumption|].
  intros cg2 Hmono print_e print types' bounds' condition' body'.
  assert (Hlater : set_mem ("buff_" ++ name) (temporary_buffers cg2) = true).
  { apply Hmono.
    pose proof (print_stmt_keeps_temporary fuel body ("buff_" ++ name) c2 Hreg)
      as K.
    rewrite E in K. exact K. }
  simpl. unfold visit_Realize. rewrite bind_gets.
  unfold bind, user_assert. rewrite Hlater. reflexivity.
Qed.

End Realizations.

(** The realization of [g] around a store to [g]. *)
Lemma visit_Realize_declares_witness :
  set_mem "buff_g"
    (temporary_buffers
       (snd (visit_stmt (H := Reference.host)
               (print_expr (H := Reference.host) 3)
               (print_stmt (H := Reference.host) 3)
               Runs.realize_g (initial "p"))))
  = true
  /\ tier_of
       (fst (visit_stmt (H := Reference.host)
               (print_expr (H := Reference.host) 3)
               (print_stmt (H := Reference.host) 3)
               Runs.realize_g
               (snd (visit_stmt (H := Reference.host)
                       (print_expr (H := Reference.host) 3)
                       (print_stmt (H := Reference.host) 3)
                       Runs.realize_g (initial "p")))))
     = Some User.
Proof.
  assert (E : visit_stmt (H := Reference.host)
                (print_expr (H := Reference.host) 3)
                (print_stmt (H := Reference.host) 3)
                Runs.realize_g (initial "p")
              = (Done tt,
                 snd (visit_stmt (H := Reference.host)
                        (print_expr (H := Reference.host) 3)
                        (print_stmt (H := Reference.host) 3)
                        Runs.realize_g (initial "p"))))
    by (vm_compute; reflexivity).
  destruct (visit_Realize_declares (H := Reference.host) 3 "g" [Int32]
              [mkRange (make_const_i32 0) (make_const_i32 4)]
              (make_const_i32 1)
              (Provide "g" [make_const_i32 1] [Samples.var "x"])
              (initial "p") _ E) as [_ [_ Hdup]].
  split; [vm_compute; reflexivity|].
  exact (f_equal (fun r => tier_of (fst r))
           (Hdup _ (fun x Hx => Hx)
                 (print_expr (H := Reference.host) 3)
                 (print_stmt (H := Reference.host) 3)
                 [Int32] [mkRange (make_const_i32 0) (make_const_i32 4)]
                 (make_const_i32 1)
                 (Provide "g" [make_const_i32 1] [Samples.var "x"]))).
Defined.

Section Calls.

Context {H : Host}.


End Calls.


(** ** Symbolic parameters of an input *)

Section InputDimensions.

Context {H : Host}.

Lemma boundVars_app (a b : list Loop) :
  boundVars (a ++ b) = (boundVars a ++ boundVars b)%list.
Proof.
  unfold boundVars, bounds_in_push_order.
  rewrite flat_map_app, filter_app. reflexivity.
Qed.

Lemma boundVars_dummy_loops (i : nat) (e : list Z) :
  (forall t v, is_const (IntImm t v) = true) ->
  boundVars (dummy_loops i e) = [].
Proof.
  intros Hlit. revert i. induction e as [|x e IH]; intros i; [reflexivity|].
  unfold boundVars, bounds_in_push_order in *. simpl.
  unfold make_const_i32. rewrite !Hlit. simpl. apply IH.
Qed.

(** X17: when the integer literals are compile-time constants for [is_const],
    the dimensions the constructor pushes for an input add no symbolic
    parameter: [get_loop_bound_vars] is the same with them as without, and
    it is empty when they are the only ones, so the identity computation
    of an input has a plain iteration domain. *)
Theorem get_loop_bound_vars_dummy_loops (dims : list Loop) (i : nat)
        (buffer_extents : list Z) :
  (forall t v, is_const (IntImm t v) = true) ->
  get_loop_bound_vars (dims ++ dummy_loops i buffer_extents)
  = get_loop_bound_vars dims
  /\ get_loop_bound_vars (dummy_loops i buffer_extents) = EmptyString.
Proof.
  intros Hlit. unfold get_loop_bound_vars.
  rewrite !relevant_exprs_boundVars, boundVars_app,
    (boundVars_dummy_loops i buffer_extents Hlit), app_nil_r.
  split; reflexivity.
Qed.

End InputDimensions.

(** The dimensions of an input of two extents, under the loop over [x]
    from [m]. *)
Lemma get_loop_bound_vars_dummy_loops_witness :
  get_loop_bound_vars (H := Reference.host)
    ([mkLoop "x" (Samples.var "m") (make_const_i32 4)]
     ++ dummy_loops 0 [4%Z; 8%Z])
  = get_loop_bound_vars (H := Reference.host)
      [mkLoop "x" (Samples.var "m") (make_const_i32 4)].
Proof.
  exact (proj1 (get_loop_bound_vars_dummy_loops (H := Reference.host)
                  [mkLoop "x" (Samples.var "m") (make_const_i32 4)] 0
                  [4%Z; 8%Z] (fun t v => eq_refl))).
Defined.
